(** * The patch-application engine of [main.py] ([apply_fixes])

    A shallow embedding of [apply_fixes] (src/main.py, lines 66-103) and of
    the Python built-ins it relies on, followed by the properties of the
    patch computation and of the confirmation gate. *)

From Stdlib Require Import ZArith Ascii String.
From stdpp Require Import base numbers option list sorting strings gmap.
From Equations Require Import Equations.

Local Open Scope Z_scope.

(** ** Python values and built-ins *)

Module Py.

(** A Python [str] is a sequence of Unicode code points. *)
Definition pystr := list N.

(** The code point of ["\n"]. *)
Definition NL : N := 10%N.

(** Text literals: the code points of the characters of an ASCII string. *)
Definition str (s : string) : pystr :=
  map N_of_ascii (list_ascii_of_string s).

(** A literal followed by a newline, such as ["a\n"]. *)
Definition line (s : string) : pystr := str s ++ [NL].

(** The exceptions that [apply_fixes] can let escape. *)
Inductive exn : Type :=
| KeyError (key : string)
| IndexError
| FileNotFoundError (path : string)
| KeyboardInterrupt.

(** A computation either returns or raises. *)
Inductive result (A : Type) : Type :=
| Ok (a : A)
| Raise (e : exn).
Arguments Ok {A} a.
Arguments Raise {A} e.

(** Sequencing: the first exception raised ends the computation. *)
#[global] Instance result_bind : MBind result := λ A B k m,
  match m with
  | Ok a => k a
  | Raise e => Raise e
  end.

Definition is_ok {A} (m : result A) : bool :=
  match m with Ok _ => true | Raise _ => false end.

(** [len(l)] as a Python integer. *)
Definition len {A} (l : list A) : Z := Z.of_nat (length l).

(** [d[key]] on a dictionary entry that may be absent. *)
Definition subscript {A} (key : string) (v : option A) : result A :=
  match v with
  | Some a => Ok a
  | None => Raise (KeyError key)
  end.

(** [l[i]]: negative indices count from the end, any index outside
    [-len(l) .. len(l)-1] raises [IndexError]. *)
Definition getitem {A} (l : list A) (i : Z) : result A :=
  let j := if i <? 0 then i + len l else i in
  if (j <? 0) || (len l <=? j) then Raise IndexError
  else match l !! Z.to_nat j with
       | Some x => Ok x
       | None => Raise IndexError
       end.

(** Slice bounds: a negative bound counts from the end, and the outcome is
    clamped to [0 .. len(l)]. *)
Definition adjust_index (n i : Z) : Z :=
  let i' := if i <? 0 then i + n else i in
  if i' <? 0 then 0 else if n <=? i' then n else i'.

(** [l[lo:hi] = r]: the slice may be empty, and an upper bound below the
    lower one is raised to it. *)
Definition setslice {A} (l : list A) (lo hi : Z) (r : list A) : list A :=
  let ilow := adjust_index (len l) lo in
  let ihigh := Z.max ilow (adjust_index (len l) hi) in
  take (Z.to_nat ilow) l ++ r ++ drop (Z.to_nat ihigh) l.

(** [s.endswith('\n')]. *)
Definition endswith_nl (s : pystr) : bool :=
  bool_decide (last s = Some NL).

(** The line boundaries of [str.splitlines]: LF, VT, FF, CR, FS, GS, RS,
    NEL, LS and PS; CR LF counts as one. *)
Definition is_linebreak (c : N) : bool :=
  bool_decide (c ∈ [10; 11; 12; 13; 28; 29; 30; 133; 8232; 8233]%N).

(** [s.splitlines(True)]: the lines of [s], each with its boundary. *)
Fixpoint splitlines (s : pystr) : list pystr :=
  match s with
  | [] => []
  | c :: s' =>
      if is_linebreak c then
        match s' with
        | d :: s'' =>
            if ((c =? 13) && (d =? 10))%N then [c; d] :: splitlines s''
            else [c] :: splitlines s'
        | [] => [[c]]
        end
      else
        match splitlines s' with
        | [] => [[c]]
        | l :: ls => (c :: l) :: ls
        end
  end.

(** [f.readlines()] on a file opened in text mode: CR LF and CR are read
    as LF, and the text is cut after each LF. *)
Fixpoint readlines (s : pystr) : list pystr :=
  match s with
  | [] => []
  | c :: s' =>
      if (c =? 10)%N then [NL] :: readlines s'
      else if (c =? 13)%N then
        match s' with
        | d :: s'' =>
            if (d =? 10)%N then [NL] :: readlines s''
            else [NL] :: readlines s'
        | [] => [[NL]]
        end
      else
        match readlines s' with
        | [] => [[c]]
        | l :: ls => (c :: l) :: ls
        end
  end.

(** [f.writelines(lines)]: the lines one after the other (a newline is
    written as it is on a POSIX system). The text is taken to be one that
    the encoding of the file can encode; a text that cannot, such as one
    with a lone surrogate, makes [writelines] raise after [open] has
    emptied the file, which this function does not show. *)
Definition writelines (lines : list pystr) : pystr := concat lines.

Section Sorted.
Context {A : Type} (key : A -> Z).

(** Descending keys: [b] may follow [a]. *)
Definition desc (a b : A) : Prop := key b <= key a.

(** Place [x], which precedes all of [l] in the input, into the sorted
    [l]: after the larger keys, before the equal and smaller ones. *)
Fixpoint insert_desc (x : A) (l : list A) : list A :=
  match l with
  | [] => [x]
  | y :: l' =>
      if key x <? key y then y :: insert_desc x l'
      else x :: y :: l'
  end.

(** [sorted(l, key=key, reverse=True)]: descending keys, equal keys in
    their input order. *)
Fixpoint sorted_desc (l : list A) : list A :=
  match l with
  | [] => []
  | x :: l' => insert_desc x (sorted_desc l')
  end.
End Sorted.

End Py.

Import Py.

(** ** The edits *)

(** One element of the [fixes] list: a dictionary of which [apply_fixes]
    reads three keys, the line numbers being integers and the code a
    string as the prompt of [get_ai_fixes] asks. [None] is an absent
    key. *)
Record fix_t : Type := Fix {
  lineNumber : option Z;
  endLineNumber : option Z;
  suggestedCode : option pystr
}.

(** An edit with all three keys. *)
Definition edit (s e : Z) (code : pystr) : fix_t :=
  Fix (Some s) (Some e) (Some code).

(** ** The patch computation (lines 77-86) *)

(** Line 84, first two conjuncts: [replacement and not
    replacement[-1].endswith('\n')]. *)
Definition needs_newline (replacement : list pystr) : bool :=
  match last replacement with
  | Some final => negb (endswith_nl final)
  | None => false
  end.

(** Line 85: [replacement[-1] += '\n']. *)
Definition add_newline (replacement : list pystr) : list pystr :=
  match last replacement with
  | Some final => removelast replacement ++ [final ++ [NL]]
  | None => replacement
  end.

(** Lines 82-85: the replacement lines. The original line at [end] is
    looked up only when the replacement is not empty and its last line has
    no newline; the last line then gets one when the original line has. *)
Definition replacement_lines (original_code_lines : list pystr) (end_ : Z)
    (code : pystr) : result (list pystr) :=
  let replacement := splitlines code in
  if needs_newline replacement then
    orig_line ← getitem original_code_lines end_;
    Ok (if endswith_nl orig_line then add_newline replacement
        else replacement)
  else Ok replacement.

(** Lines 80-86: the body of the loop for one fix. *)
Definition apply_fix (original_code_lines modified_code_lines : list pystr)
    (fx : fix_t) : result (list pystr) :=
  ln ← subscript "lineNumber" (lineNumber fx);
  let start := ln - 1 in
  let end_ := default (start + 1) (endLineNumber fx) - 1 in
  code ← subscript "suggestedCode" (suggestedCode fx);
  replacement ← replacement_lines original_code_lines end_ code;
  Ok (setslice modified_code_lines start (end_ + 1) replacement).

(** The loop over the sorted fixes. *)
Fixpoint apply_sorted (original_code_lines modified_code_lines : list pystr)
    (fixes : list fix_t) : result (list pystr) :=
  match fixes with
  | [] => Ok modified_code_lines
  | fx :: rest =>
      modified ← apply_fix original_code_lines modified_code_lines fx;
      apply_sorted original_code_lines modified rest
  end.

(** The sort key [lambda x: x['lineNumber']]. The value given to a fix
    without [lineNumber] is never compared: [sorted_fixes] raises first. *)
Definition sort_key (fx : fix_t) : Z := default 0 (lineNumber fx).

(** Line 79: [sorted] evaluates the key of every fix before it orders
    them, so one absent [lineNumber] raises [KeyError]. *)
Definition sorted_fixes (fixes : list fix_t) : result (list fix_t) :=
  if forallb (fun fx => bool_decide (is_Some (lineNumber fx))) fixes
  then Ok (sorted_desc sort_key fixes)
  else Raise (KeyError "lineNumber").

(** Lines 77-86: [modified_code_lines] after the loop. *)
Definition modified_code_lines (original_code_lines : list pystr)
    (fixes : list fix_t) : result (list pystr) :=
  sorted ← sorted_fixes fixes;
  apply_sorted original_code_lines original_code_lines sorted.

(** ** The confirmation gate (lines 66-76 and 88-103) *)

(** What [Confirm.ask] can do: return [True], return [False], or let the
    interrupt of the user escape. *)
Inductive reply : Type := Yes | No | Interrupt.

(** What the function shows on the console. The rendering of the unified
    diff (lines 88-96) is kept as one event carrying both line sequences.
    Printing is taken to succeed: the diff lines are printed as console
    markup, and a line that is not well-formed markup makes [console.print]
    raise before the user is asked, which the events do not show. *)
Inductive event : Type :=
| NoIssuesFound
| ProposedChanges (original modified : list pystr)
| Confirm_ask (answer : reply)
| FixesApplied
| AbortedNoChanges.

(** How a call ends. *)
Inductive outcome : Type :=
| Nothing_to_do
| Applied
| Aborted
| Failed (e : exn).

Record run : Type := Run {
  ended : outcome;
  console : list event;
  disk : gmap string pystr
}.

(** [apply_fixes(file_path, fixes)] on the files [fs], [answer] being what
    the user does at the prompt if it is reached. *)
Definition apply_fixes (file_path : string) (fixes : list fix_t)
    (answer : reply) (fs : gmap string pystr) : run :=
  match fixes with
  | [] => Run Nothing_to_do [NoIssuesFound] fs
  | _ :: _ =>
      match fs !! file_path with
      | None => Run (Failed (FileNotFoundError file_path)) [] fs
      | Some text =>
          let original_code_lines := readlines text in
          match modified_code_lines original_code_lines fixes with
          | Raise e => Run (Failed e) [] fs
          | Ok modified =>
              let shown :=
                [ProposedChanges original_code_lines modified;
                 Confirm_ask answer] in
              match answer with
              | Yes =>
                  Run Applied (shown ++ [FixesApplied])
                      (<[file_path := writelines modified]> fs)
              | No => Run Aborted (shown ++ [AbortedNoChanges]) fs
              | Interrupt => Run (Failed KeyboardInterrupt) shown fs
              end
          end
      end
  end.

(** The user was asked and declined. *)
Definition declined (r : run) : Prop := Confirm_ask No ∈ console r.

(** ** Valid edits and the reference implementation *)

(** The 1-based first and last line of the range of a fix; the last line
    is the first one when [endLineNumber] is absent. *)
Definition start_line (fx : fix_t) : Z := sort_key fx.
Definition end_line (fx : fix_t) : Z :=
  default (start_line fx) (endLineNumber fx).

(** A fix has the keys that [apply_fixes] subscripts. *)
Definition well_formed (fx : fix_t) : Prop :=
  is_Some (lineNumber fx) /\ is_Some (suggestedCode fx).

(** A valid edit of a document of [n] lines. *)
Definition valid (n : Z) (fx : fix_t) : Prop :=
  well_formed fx /\ 1 <= start_line fx <= end_line fx /\ end_line fx <= n.

(** Two ranges without a common line, and two with one. *)
Definition disjoint (f g : fix_t) : Prop :=
  end_line f < start_line g \/ end_line g < start_line f.
Definition overlap (f g : fix_t) : Prop :=
  start_line f <= end_line g /\ start_line g <= end_line f.

(** An edit [g] of a document of [n] lines that has its [lineNumber] and
    lies beside the range of [f]. *)
Definition beside (n : Z) (f g : fix_t) : Prop :=
  is_Some (lineNumber g) /\ 1 <= start_line g <= end_line g /\
  end_line g <= n /\ disjoint f g.

(** Mutually non-overlapping edits. *)
Fixpoint non_overlapping (fixes : list fix_t) : Prop :=
  match fixes with
  | [] => True
  | f :: rest => Forall (disjoint f) rest /\ non_overlapping rest
  end.

(** A fix moved [d] lines further down the document. *)
Definition shift_fix (d : Z) (g : fix_t) : fix_t :=
  Fix ((λ n, n + d) <$> lineNumber g) ((λ n, n + d) <$> endLineNumber g)
      (suggestedCode g).

(** The line numbers of [g] once [f] has been applied and has changed the
    line count by [delta]: the edits that start after the range of [f]
    move, the others keep their line numbers. *)
Definition recompute (f : fix_t) (delta : Z) (g : fix_t) : fix_t :=
  if bool_decide (end_line f < start_line g) then shift_fix delta g else g.

(** The reference implementation of the specification, written from its
    section 4.3 and its property "order independence of correctness" and
    from nothing of [apply_fixes] but the built-in [splitlines], which is
    how the replacement text is split into lines. *)

(** The replacement text of an edit. *)
Definition replacement_text (g : fix_t) : pystr :=
  default [] (suggestedCode g).

(** A text or a line ends in a terminator, the newline. *)
Definition terminated (l : pystr) : bool :=
  match reverse l with
  | c :: _ => (c =? NL)%N
  | [] => false
  end.

(** The final line is given a terminator. *)
Definition with_terminator (ls : list pystr) : list pystr :=
  match reverse ls with
  | final :: front => reverse front ++ [final ++ [NL]]
  | [] => []
  end.

(** "Split [replacementText] into lines, preserving each line's own
    terminator except that the final replacement line inherits the
    terminator state of the original line at [endLine] if the replacement
    text itself did not end in a terminator." *)
Definition reference_replacement (doc : list pystr) (g : fix_t)
    : list pystr :=
  let text := replacement_text g in
  let ls := splitlines text in
  if terminated text then ls
  else match doc !! Z.to_nat (end_line g - 1) with
       | Some original => if terminated original then with_terminator ls
                          else ls
       | None => ls
       end.

(** "Replace the slice [[startLine-1, endLine-1]] (0-based, inclusive) of
    the working sequence with the replacement lines in a single splice
    operation": the lines before [startLine], the replacement lines, the
    lines after [endLine]. *)
Definition reference_splice (doc : list pystr) (g : fix_t) : list pystr :=
  take (Z.to_nat (start_line g - 1)) doc
  ++ reference_replacement doc g
  ++ drop (Z.to_nat (end_line g)) doc.

(** "Applying the individual edits one at a time against freshly-recomputed
    indices after each step (a naive reference implementation)": the edits
    in the order of the list, each spliced into the current document, the
    line numbers of the remaining ones recomputed by the change of the line
    count. *)
Equations naive_reference (doc : list pystr) (edits : list fix_t)
    : list pystr by wf (length edits) lt :=
  naive_reference doc [] := doc;
  naive_reference doc (g :: rest) :=
    naive_reference (reference_splice doc g)
      (map (recompute g (len (reference_splice doc g) - len doc)) rest).
Next Obligation. rewrite length_map. lia. Qed.

(** [endLineNumber] made explicit where it is absent. *)
Definition with_end_line (fx : fix_t) : fix_t :=
  match lineNumber fx, endLineNumber fx with
  | Some n, None => Fix (Some n) (Some n) (suggestedCode fx)
  | _, _ => fx
  end.

(** ** The scenarios of the specification *)

Definition doc_abc : list pystr := [line "a"; line "b"; line "c"].

(** ** Line counts and line shapes *)

(** The change of the line count that a fix makes: the lines of its
    replacement text minus the lines of its range. *)
Definition growth (fx : fix_t) : Z :=
  len (splitlines (default [] (suggestedCode fx)))
  - (end_line fx - start_line fx + 1).

Definition total_growth (fixes : list fix_t) : Z :=
  foldr (λ fx acc, growth fx + acc) 0 fixes.

(** A text without LF and CR. *)
Definition plain (s : pystr) : Prop :=
  Forall (λ c, c <> 10%N /\ c <> 13%N) s.

(** A line that ends in its newline, and a last line without one. *)
Definition full_line (l : pystr) : Prop :=
  exists body, plain body /\ l = body ++ [NL].
Definition open_line (l : pystr) : Prop := plain l /\ l <> [].

(** The lines of a text file: every line is full or open, and only the
    last one may be open. *)
Definition file_lines (ls : list pystr) : Prop :=
  Forall (λ l, full_line l \/ open_line l) ls
  /\ Forall full_line (removelast ls).

(** A text in which LF is the only line boundary of [splitlines]. *)
Definition lf_only (code : pystr) : Prop :=
  Forall (λ c, is_linebreak c = true -> c = NL) code.

(** A fix whose replacement text has LF as only line boundary. *)
Definition lf_only_fix (fx : fix_t) : Prop :=
  lf_only (default [] (suggestedCode fx)).

(** ** More built-ins: the string methods of [review_command] *)

(** [s.startswith(pre)]. *)
Fixpoint startswith (pre s : pystr) : bool :=
  match pre, s with
  | [], _ => true
  | _ :: _, [] => false
  | p :: pre', c :: s' => (p =? c)%N && startswith pre' s'
  end.

(** [needle in hay] on strings. *)
Fixpoint contains (needle hay : pystr) : bool :=
  startswith needle hay
  || match hay with
     | [] => false
     | _ :: hay' => contains needle hay'
     end.

(** [s.replace(old, new)] for an [old] that is not empty: the occurrences
    of [old] are replaced from the left, the search going on after each
    one. *)
Equations replace (old new s : pystr) : pystr by wf (length s) lt :=
  replace old new [] := [];
  replace old new (c :: s) with startswith old (c :: s) := {
    | true := new ++ replace old new (drop (pred (length old)) s)
    | false := c :: replace old new s }.
Next Obligation. rewrite length_drop. lia. Qed.

(** The white space of [str.strip]. *)
Definition is_space (c : N) : bool :=
  ((9 <=? c) && (c <=? 13) || (28 <=? c) && (c <=? 32)
   || (8192 <=? c) && (c <=? 8202)
   || bool_decide (c ∈ [133; 160; 5760; 8232; 8233; 8239; 8287; 12288]))%N.

Fixpoint lstrip (s : pystr) : pystr :=
  match s with
  | [] => []
  | c :: s' => if is_space c then lstrip s' else s
  end.

(** [s.strip()]. *)
Definition strip (s : pystr) : pystr := reverse (lstrip (reverse (lstrip s))).

(** The characters of the class [[\x00-\x1f\x7f-\x9f]]. *)
Definition is_control (c : N) : bool :=
  ((c <=? 31) || (127 <=? c) && (c <=? 159))%N.

(** [re.sub(r'[\x00-\x1f\x7f-\x9f]', '', s)]. *)
Definition remove_controls (s : pystr) : pystr :=
  filter (λ c, is_control c = false) (s : list N).

(** Lines 200-202: the text that is given to [json.loads]. *)
Definition json_str (review_data_str : pystr) : pystr :=
  remove_controls
    (strip (replace (str "```") []
              (replace (str "```json") [] review_data_str))).

(** A text that does not begin and does not end with white space. *)
Definition stripped (s : pystr) : Prop :=
  lstrip s = s /\ lstrip (reverse s) = reverse s.

(** The code point of the backtick. *)
Definition backtick : N := 96%N.

(** ** The model, [get_ai_fixes], [get_ai_audit_section] and
    [review_command] *)

(** The requests to the model. The text around the variable parts of a
    prompt is fixed, so that a request is given by its kind and its
    variable parts. *)
Inductive prompt : Type :=
| FixesPrompt (code : pystr)
| ContractNamePrompt (code : pystr)
| ConclusionPrompt (contract_name code : pystr)
| ListPrompt (section_name contract_name code : pystr)
| NarrativePrompt (section_name contract_name code : pystr).

(** What [model.generate_content(prompt)] followed by [response.text]
    does: it gives a text, or raises an [Exception] with a message. *)
Inductive ai_result : Type :=
| Text (text : pystr)
| AiException (message : pystr).

(** What [review_command] and the functions it calls show. Printing is
    taken to succeed here as well: the file name, the messages of the
    exceptions, the raw response and the contract name are printed as
    console markup, and a text that is not well-formed markup makes
    [console.print] raise where the events below go on. *)
Inductive review_event : Type :=
| Analyzing (file_path : string)
| FileNotFoundMessage (file_path : string)
| ModelAccessError (message : pystr)
| ModelContactError (message : pystr)
| CouldNotGetReview
| JsonParseError (error raw_response : pystr)
| FromApplyFixes (e : event)
| ContractNameError (message : pystr)
| ReportTitle (contract_name : pystr)
| ReportDescription (contract_name : pystr)
| Spacer
| CodeSnippetHeading
| CodeSnippet (code : pystr)
| AuditFindingsHeading
| SectionHeading (i : nat) (section_name : pystr)
| SectionError (section_name message : pystr)
| SectionContent (content : pystr)
| NoFindings.

(** How a call of [review_command] ends ([None]: it returns), what it has
    shown and the files it leaves. *)
Record review_run : Type := ReviewRun {
  raised : option exn;
  shown : list review_event;
  files : gmap string pystr
}.

(** [f.read()] on a file opened in text mode. *)
Definition read (text : pystr) : pystr := concat (readlines text).

(** The sections of the report (lines 238-246). *)
Definition sections : list pystr :=
  [str "Security Vulnerabilities"; str "Privacy Leaks"; str "Logic Errors";
   str "Line by Line Analysis"; str "Best Practices";
   str "Recommendations"; str "Conclusion"].

Section Review.

(** The model, and [json.loads] on the cleaned response: a
    [JSONDecodeError] with its message, or the decoded value, taken to be
    a list of dictionaries with the keys of a fix. *)
Variable generate_content : prompt -> ai_result.
Variable json_loads : pystr -> pystr + list fix_t.

(** [get_ai_fixes(code)] (lines 30-64): the text of the response, or
    ["[]"] after an error message when the request raises. *)
Definition get_ai_fixes (code : pystr) : pystr * list review_event :=
  match generate_content (FixesPrompt code) with
  | Text text => (text, [])
  | AiException error_message =>
      (str "[]",
       [if contains (str "is not found") error_message
           || contains (str "does not have access") error_message
        then ModelAccessError error_message
        else ModelContactError error_message])
  end.

(** [get_ai_audit_section(code, section_name, contract_name)] (lines
    105-182): the text of the response, or the empty text after an error
    message when the request raises. *)
Definition get_ai_audit_section (code section_name contract_name : pystr)
    : pystr * list review_event :=
  let is_list_section :=
    negb (bool_decide
            (section_name
             ∈ [str "Line by Line Analysis"; str "Conclusion"])) in
  let prompt :=
    if bool_decide (section_name = str "Conclusion")
    then ConclusionPrompt contract_name code
    else if is_list_section
         then ListPrompt section_name contract_name code
         else NarrativePrompt section_name contract_name code in
  match generate_content prompt with
  | Text text => (text, [])
  | AiException message => ([], [SectionError section_name message])
  end.

(** The body of the loop of lines 248-258 for section [i]. *)
Definition report_section (code contract_name : pystr) (i : nat)
    (section_name : pystr) : list review_event :=
  let '(section_content_str, errors) :=
    get_ai_audit_section code section_name contract_name in
  [SectionHeading i section_name] ++ errors
  ++ [match strip section_content_str with
      | [] => NoFindings
      | _ :: _ => SectionContent section_content_str
      end; Spacer].

(** Lines 210-258: the report. *)
Definition report (code : pystr) : list review_event :=
  let '(contract_name, errors) :=
    match generate_content (ContractNamePrompt code) with
    | Text text => (strip text, [])
    | AiException message => (str "Unknown", [ContractNameError message])
    end in
  errors
  ++ [ReportTitle contract_name; ReportDescription contract_name; Spacer;
      CodeSnippetHeading; CodeSnippet code; Spacer;
      AuditFindingsHeading; Spacer]
  ++ concat (imap (λ i section_name,
                     report_section code contract_name (S i) section_name)
                  sections).

(** [review_command(file_path, fix)] (lines 184-258) on the files [fs],
    [fix_flag] being its argument [fix] and [answer] what the user does
    if [apply_fixes] asks. An exception
    of [apply_fixes] is not a [JSONDecodeError] and escapes. *)
Definition review_command (file_path : string) (fix_flag : bool)
    (answer : reply) (fs : gmap string pystr) : review_run :=
  match fs !! file_path with
  | None =>
      ReviewRun None [Analyzing file_path; FileNotFoundMessage file_path] fs
  | Some text =>
      let code := read text in
      if fix_flag then
        let '(review_data_str, errors) := get_ai_fixes code in
        if bool_decide (review_data_str = [])
           || bool_decide (review_data_str = str "[]")
        then ReviewRun None
               ([Analyzing file_path] ++ errors ++ [CouldNotGetReview]) fs
        else
          match json_loads (json_str review_data_str) with
          | inl error =>
              ReviewRun None
                ([Analyzing file_path] ++ errors
                 ++ [JsonParseError error review_data_str]) fs
          | inr fixes =>
              let r := apply_fixes file_path fixes answer fs in
              ReviewRun
                (match ended r with Failed e => Some e | _ => None end)
                ([Analyzing file_path] ++ errors
                 ++ map FromApplyFixes (console r))
                (disk r)
          end
      else ReviewRun None ([Analyzing file_path] ++ report code) fs
  end.

End Review.

(** ** [chat_command] and [main] *)

(** What the user does at the input prompt of the chat: a line, or an
    interrupt. When the list of the actions is used up the input is closed
    ([console.input] raises [EOFError]). Lines and file names are kept as
    they are: they are compared and passed on, not looked into. *)
Inductive user_action : Type :=
| Line (user_input : string)
| CtrlC.

(** The messages sent to the chat session: the initial prompt, with the
    file given for context if there is one, the prompt that loads a file,
    and a line of the user. *)
Inductive chat_message : Type :=
| InitialPrompt (context : option (string * pystr))
| FilePrompt (file_path : string) (file_content : pystr)
| UserMessage (user_input : string).

(** What [chat_model.send_message(m)] and the later [response.text] do:
    both succeed, the first raises, or the second raises. *)
Inductive chat_result : Type :=
| Reply (text : pystr)
| SendRaises (message : pystr)
| TextRaises (message : pystr).

(** Why the loop of the chat ends with an error. *)
Inductive chat_failure : Type :=
| EndOfInput
| ModelFailure (message : pystr).

(** What [chat_command] shows. *)
Inductive chat_event : Type :=
| ChatStarting
| ChattingAbout (file_path : string)
| ContextFileNotFound (file_path : string)
| LoadedFile (file_path : string)
| AiSays (text : pystr)
| LoadFileNotFound (file_path : string)
| LoadError (message : pystr)
| ChatError (cause : chat_failure)
| ChatEnded.

(** How a call of [chat_command] ends ([Some]: the exception of the first
    request escapes), what it has shown and the messages it has sent. *)
Record chat_run : Type := ChatRun {
  chat_raised : option pystr;
  chat_shown : list chat_event;
  chat_sent : list chat_message
}.

Section Chat.

(** The chat session, whose answer may depend on all the messages sent
    before; the test [user_input.lower() == 'exit']; and the file named by
    a line that matches [^(?:load|read) file (.+)$] once stripped, case
    being ignored. *)
Variable send_message : list chat_message -> chat_message -> chat_result.
Variable exit_requested : string -> bool.
Variable file_request : string -> option string.

(** The loop of lines 278-310 on the files [fs]: what is shown and the
    messages sent when it ends. *)
Fixpoint chat_loop (fs : gmap string pystr) (inputs : list user_action)
    (history : list chat_message) : list chat_event * list chat_message :=
  match inputs with
  | [] => ([ChatError EndOfInput], history)
  | CtrlC :: _ => ([], history)
  | Line user_input :: rest =>
      if exit_requested user_input then ([], history)
      else
        match file_request user_input with
        | Some file_path =>
            match fs !! file_path with
            | None =>
                let '(events, sent) := chat_loop fs rest history in
                (LoadFileNotFound file_path :: events, sent)
            | Some text =>
                let file_prompt := FilePrompt file_path (read text) in
                let '(events, sent) :=
                  chat_loop fs rest (history ++ [file_prompt]) in
                (match send_message history file_prompt with
                 | Reply text => [LoadedFile file_path; AiSays text]
                 | SendRaises message => [LoadError message]
                 | TextRaises message =>
                     [LoadedFile file_path; LoadError message]
                 end ++ events, sent)
            end
        | None =>
            let message := UserMessage user_input in
            match send_message history message with
            | Reply text =>
                let '(events, sent) :=
                  chat_loop fs rest (history ++ [message]) in
                (AiSays text :: events, sent)
            | SendRaises error | TextRaises error =>
                ([ChatError (ModelFailure error)], history ++ [message])
            end
        end
  end.

(** Lines 265-274: the file given for context, if [file_path] is a name
    that is not empty and the file exists, and what is shown. *)
Definition chat_context (file_path : option string)
    (fs : gmap string pystr)
    : option (string * pystr) * list chat_event :=
  match file_path with
  | None => (None, [])
  | Some path =>
      if bool_decide (path = EmptyString) then (None, [])
      else match fs !! path with
           | Some text => (Some (path, read text), [ChattingAbout path])
           | None => (None, [ContextFileNotFound path])
           end
  end.

(** [chat_command(file_path)] (lines 259-311). The first request is made
    outside the [try], and its response is not read. *)
Definition chat_command (file_path : option string)
    (inputs : list user_action) (fs : gmap string pystr) : chat_run :=
  let '(context, events) := chat_context file_path fs in
  let initial_prompt := InitialPrompt context in
  match send_message [] initial_prompt with
  | SendRaises message =>
      ChatRun (Some message) (ChatStarting :: events) [initial_prompt]
  | Reply _ | TextRaises _ =>
      let '(shown, sent) := chat_loop fs inputs [initial_prompt] in
      ChatRun None (ChatStarting :: events ++ shown ++ [ChatEnded]) sent
  end.

(** An action that ends the chat: an interrupt, or a line that asks for
    the exit. *)
Definition stops (a : user_action) : Prop :=
  match a with
  | CtrlC => True
  | Line user_input => exit_requested user_input = true
  end.

(** A message that carries only what the user has given: a line of the
    user, or the text of a file that the user has named. *)
Definition given_by_user (file_path : option string)
    (inputs : list user_action) (fs : gmap string pystr)
    (m : chat_message) : Prop :=
  match m with
  | InitialPrompt None => True
  | InitialPrompt (Some (path, content)) =>
      file_path = Some path /\
      exists text, fs !! path = Some text /\ content = read text
  | FilePrompt path content =>
      exists user_input text,
        Line user_input ∈ inputs /\ file_request user_input = Some path /\
        fs !! path = Some text /\ content = read text
  | UserMessage user_input => Line user_input ∈ inputs
  end.

End Chat.

(** What [main] shows, an exception that escapes it, and a run of it. *)
Inductive main_event : Type :=
| Usage
| ReviewUsage
| ChatUsage
| UnknownCommand (command : string)
| ReviewShows (e : review_event)
| ChatShows (e : chat_event).

Inductive escaped : Type :=
| PatchRaised (e : exn)
| ModelRaised (message : pystr).

Record main_run : Type := MainRun {
  main_raised : option escaped;
  main_shown : list main_event;
  main_files : gmap string pystr
}.

Section Main.
Variable generate_content : prompt -> ai_result.
Variable json_loads : pystr -> pystr + list fix_t.
Variable send_message : list chat_message -> chat_message -> chat_result.
Variable exit_requested : string -> bool.
Variable file_request : string -> option string.

(** [main()] (lines 312-337) on the arguments [args] after the program
    name, with the answer of the user to [apply_fixes], what the user
    types in the chat, and the files. *)
Definition main (args : list string) (answer : reply)
    (inputs : list user_action) (fs : gmap string pystr) : main_run :=
  match args with
  | [] => MainRun None [Usage] fs
  | command :: rest =>
      if bool_decide (command = "review"%string) then
        match rest with
        | [] => MainRun None [ReviewUsage] fs
        | file_path :: _ =>
            let fix_flag := bool_decide ("--fix"%string ∈ args) in
            let r := review_command generate_content json_loads
                       file_path fix_flag answer fs in
            MainRun (PatchRaised <$> raised r) (ReviewShows <$> shown r)
                    (files r)
        end
      else if bool_decide (command = "chat"%string) then
        match rest with
        | _ :: _ :: _ => MainRun None [ChatUsage] fs
        | _ =>
            let r := chat_command send_message exit_requested file_request
                       (head rest) inputs fs in
            MainRun (ModelRaised <$> chat_raised r)
                    (ChatShows <$> chat_shown r) fs
        end
      else MainRun None [UnknownCommand command] fs
  end.

End Main.

(** * Properties *)

(** An event that is none of the events of a console. *)
Ltac no_such_event H :=
  repeat (apply elem_of_cons in H as [H|H]; [discriminate H|]);
  by apply elem_of_nil in H.

(** ** Python built-ins *)

Lemma len_nonneg {A} (l : list A) : 0 <= len l.
Proof. unfold len. lia. Qed.

Lemma len_app {A} (l k : list A) : len (l ++ k) = len l + len k.
Proof. unfold len. rewrite length_app. lia. Qed.

Lemma len_nil {A} : len (@nil A) = 0.
Proof. reflexivity. Qed.

(** A slice with bounds inside the list. *)
Lemma setslice_in_range {A} (l r : list A) (lo hi : Z) :
  0 <= lo -> lo <= hi -> hi <= len l ->
  setslice l lo hi r = take (Z.to_nat lo) l ++ r ++ drop (Z.to_nat hi) l.
Proof.
  intros Hlo Hhi Hlen. unfold setslice, adjust_index.
  repeat case_match; try lia; repeat f_equal; lia.
Qed.

(** The slice that covers the middle of three parts. *)
Lemma setslice_middle {A} (a b c r : list A) :
  setslice (a ++ b ++ c) (len a) (len a + len b) r = a ++ r ++ c.
Proof.
  rewrite setslice_in_range.
  - unfold len. rewrite !Nat2Z.id, take_app_length.
    replace (Z.to_nat (Z.of_nat (length a) + Z.of_nat (length b)))
      with (length a + length b)%nat by lia.
    rewrite drop_app_add'; [|done]. by rewrite drop_app_length.
  - apply len_nonneg.
  - pose proof (len_nonneg b). lia.
  - rewrite !len_app. pose proof (len_nonneg c). lia.
Qed.

Lemma adjust_index_bounds (n i : Z) :
  0 <= n -> 0 <= adjust_index n i <= n.
Proof. intros Hn. unfold adjust_index. repeat case_match; lia. Qed.

Lemma adjust_index_frame (k n i : Z) :
  0 <= k -> 0 <= i -> adjust_index (k + n) (k + i) = k + adjust_index n i.
Proof. intros Hk Hi. unfold adjust_index. repeat case_match; lia. Qed.

(** Bounds that are not negative see only what follows a prefix. *)
Lemma setslice_frame {A} (p l r : list A) (lo hi : Z) :
  0 <= lo -> 0 <= hi ->
  setslice (p ++ l) (len p + lo) (len p + hi) r = p ++ setslice l lo hi r.
Proof.
  intros Hlo Hhi. unfold setslice. rewrite len_app.
  pose proof (len_nonneg p) as Hp. pose proof (len_nonneg l) as Hl.
  rewrite !adjust_index_frame, Z.add_max_distr_l by done.
  pose proof (adjust_index_bounds (len l) lo Hl).
  pose proof (adjust_index_bounds (len l) hi Hl).
  set (a := adjust_index (len l) lo) in *.
  set (b := adjust_index (len l) hi) in *.
  replace (Z.to_nat (len p + a)) with (length p + Z.to_nat a)%nat
    by (unfold len; lia).
  replace (Z.to_nat (len p + a `max` b))
    with (length p + Z.to_nat (a `max` b))%nat by (unfold len; lia).
  rewrite take_app_add', drop_app_add' by done.
  by rewrite <- app_assoc.
Qed.


(** An index inside the list is read from the list. *)
Lemma getitem_in_range {A} (l : list A) (i : Z) (x : A) :
  0 <= i -> l !! Z.to_nat i = Some x -> getitem l i = Ok x.
Proof.
  intros Hi Hx. unfold getitem.
  apply lookup_lt_Some in Hx as Hlt. unfold len.
  destruct (i <? 0) eqn:E1; [lia|]. rewrite Hx.
  case_match; [lia | done].
Qed.

(** An index past the end raises. *)
Lemma getitem_past_end {A} (l : list A) (i : Z) :
  len l <= i -> getitem l i = Raise IndexError.
Proof.
  intros Hi. unfold getitem. pose proof (len_nonneg l).
  repeat case_match; try lia; done.
Qed.

(** An index before [-len(l)] raises. *)
Lemma getitem_before_start {A} (l : list A) (i : Z) :
  i < - len l -> getitem l i = Raise IndexError.
Proof.
  intros Hi. unfold getitem. pose proof (len_nonneg l).
  repeat case_match; try lia; done.
Qed.

(** The index [-1] reads the last element. *)
Lemma getitem_minus_one {A} (l : list A) (x : A) :
  last l = Some x -> getitem l (-1) = Ok x.
Proof.
  intros Hx. unfold getitem. rewrite last_lookup in Hx.
  apply lookup_lt_Some in Hx as Hlt. unfold len.
  change (-1 <? 0) with true. cbv iota.
  replace (Z.to_nat (-1 + Z.of_nat (length l))) with (pred (length l))
    by lia.
  rewrite Hx. case_match; [lia | done].
Qed.

Lemma getitem_frame {A} (p l : list A) (i : Z) :
  0 <= i -> getitem (p ++ l) (len p + i) = getitem l i.
Proof.
  intros Hi. unfold getitem. rewrite len_app.
  pose proof (len_nonneg p) as Hp. unfold len in *.
  destruct (Z.of_nat (length p) + i <? 0) eqn:E1; [lia|].
  destruct (i <? 0) eqn:E2; [lia|].
  replace (Z.to_nat (Z.of_nat (length p) + i))
    with (length p + Z.to_nat i)%nat by lia.
  rewrite lookup_app_r, Nat.add_sub' by lia.
  repeat case_match; try lia; done.
Qed.

(** An index inside a prefix does not see what follows the prefix. *)
Lemma getitem_prefix {A} (p l k : list A) (i : Z) :
  0 <= i < len p -> getitem (p ++ l) i = getitem (p ++ k) i.
Proof.
  intros Hi. unfold getitem. rewrite !len_app.
  pose proof (len_nonneg l). pose proof (len_nonneg k). unfold len in *.
  destruct (i <? 0) eqn:E1; [lia|].
  rewrite !lookup_app_l by lia.
  repeat case_match; try lia; done.
Qed.

(** *** The built-ins on small inputs *)

Example splitlines_mixed_boundaries :
  splitlines (str "a" ++ [13; 10]%N ++ str "b" ++ [13]%N ++ str "c")
  = [str "a" ++ [13; 10]%N; str "b" ++ [13]%N; str "c"].
Proof. reflexivity. Qed.

Example splitlines_empty : splitlines [] = [].
Proof. reflexivity. Qed.

Example readlines_universal_newlines :
  readlines (str "a" ++ [13; 10]%N ++ str "b" ++ [13]%N ++ str "c")
  = [line "a"; line "b"; str "c"].
Proof. reflexivity. Qed.

Example setslice_negative_bounds :
  setslice [1; 2; 3] (-1) 0 [9] = [1; 2; 9; 3]
  /\ setslice [1; 2; 3] 1 3 [] = [1]
  /\ setslice [1; 2; 3] 4 5 [9] = [1; 2; 3; 9]
  /\ setslice [1; 2; 3] (-9) 1 [9] = [9; 2; 3].
Proof. repeat split; reflexivity. Qed.

Example getitem_negative_index :
  getitem [1; 2; 3] (-1) = Ok 3
  /\ getitem [1; 2; 3] (-4) = Raise IndexError
  /\ getitem [1; 2; 3] 3 = Raise IndexError.
Proof. repeat split; reflexivity. Qed.

Example sorted_desc_keeps_ties_in_order :
  sorted_desc fst [(1, 10); (2, 20); (1, 30); (2, 40)]
  = [(2, 20); (2, 40); (1, 10); (1, 30)].
Proof. reflexivity. Qed.

(** ** [splitlines] *)

(** Induction on texts that follows the two-character look-ahead. *)
Lemma pystr_ind2 (P : pystr -> Prop) :
  P [] -> (forall c, P [c]) ->
  (forall c d s, P s -> P (d :: s) -> P (c :: d :: s)) ->
  forall s, P s.
Proof.
  intros H0 H1 H2 s.
  assert (P s /\ forall c, P (c :: s)) as [? _]; [|done].
  induction s as [|d s [IH1 IH2]]; split; auto.
Qed.

(** The lines put together give the text back. *)
Lemma splitlines_concat (s : pystr) : concat (splitlines s) = s.
Proof.
  induction s as [|c|c d s IH1 IH2] using pystr_ind2; [done| |].
  - simpl. by case_match.
  - change (splitlines (c :: d :: s)) with
      (if is_linebreak c then
         if ((c =? 13) && (d =? 10))%N then [c; d] :: splitlines s
         else [c] :: splitlines (d :: s)
       else match splitlines (d :: s) with
            | [] => [[c]]
            | l :: ls => (c :: l) :: ls
            end).
    repeat case_match; simpl in *; try congruence.
Qed.

(** No line is empty. *)
Lemma splitlines_nonempty (s : pystr) : Forall (λ l, l <> []) (splitlines s).
Proof.
  induction s as [|c|c d s IH1 IH2] using pystr_ind2.
  - constructor.
  - simpl. case_match; by repeat constructor.
  - change (splitlines (c :: d :: s)) with
      (if is_linebreak c then
         if ((c =? 13) && (d =? 10))%N then [c; d] :: splitlines s
         else [c] :: splitlines (d :: s)
       else match splitlines (d :: s) with
            | [] => [[c]]
            | l :: ls => (c :: l) :: ls
            end).
    repeat case_match; try (by repeat constructor).
    inversion IH2; subst. by constructor.
Qed.

Lemma last_concat {A} (ls : list (list A)) (final : list A) :
  Forall (λ l, l <> []) ls -> last ls = Some final ->
  last (concat ls) = last final.
Proof.
  intros Hne Hlast.
  destruct (last_Some ls final) as [[ls' ->] _]; [done|].
  rewrite concat_app. simpl. rewrite app_nil_r.
  apply Forall_app in Hne as [_ Hne]. inversion Hne; subst.
  destruct final as [|x final] using rev_ind; [done|].
  by rewrite app_assoc, !last_snoc.
Qed.

(** A text that is not empty has a last line, which ends as the text. *)
Lemma splitlines_last (s : pystr) :
  s <> [] ->
  exists final, last (splitlines s) = Some final /\ last final = last s.
Proof.
  intros Hs. destruct (last (splitlines s)) as [final|] eqn:E.
  - exists final. split; [done|].
    rewrite <- (last_concat _ _ (splitlines_nonempty s) E).
    by rewrite splitlines_concat.
  - apply last_None in E. pose proof (splitlines_concat s) as Hc.
    rewrite E in Hc. simpl in Hc. congruence.
Qed.

(** The test of line 84 on the replacement lines is a test on the text. *)
Lemma needs_newline_splitlines (code : pystr) :
  needs_newline (splitlines code)
  = bool_decide (code <> []) && negb (endswith_nl code).
Proof.
  unfold needs_newline. destruct (decide (code = [])) as [->|Hne]; [done|].
  destruct (splitlines_last code Hne) as (final & -> & Hlast).
  rewrite bool_decide_true by done. unfold endswith_nl.
  by rewrite Hlast.
Qed.

(** ** One fix *)

Lemma bind_Ok_r {A} (m : result A) : (x ← m; Ok x) = m.
Proof. by destruct m. Qed.

(** A list of one fix is the body of the loop run once on the document. *)
Lemma modified_single (doc : list pystr) (fx : fix_t) :
  modified_code_lines doc [fx] = apply_fix doc doc fx.
Proof.
  unfold modified_code_lines, sorted_fixes.
  destruct fx as [[s|] e c]; simpl; [apply bind_Ok_r | done].
Qed.

(** The body of the loop in terms of the range of the fix. *)
Lemma apply_fix_unfold (orig cur : list pystr) (fx : fix_t) (s : Z)
    (code : pystr) :
  lineNumber fx = Some s -> suggestedCode fx = Some code ->
  apply_fix orig cur fx =
    r ← replacement_lines orig (end_line fx - 1) code;
    Ok (setslice cur (s - 1) (end_line fx) r).
Proof.
  intros Hs Hc. unfold apply_fix, end_line, start_line, sort_key.
  rewrite Hs, Hc. simpl.
  destruct (endLineNumber fx) as [e|]; simpl.
  - replace (e - 1 + 1) with e by lia. done.
  - replace (s - 1 + 1 - 1) with (s - 1) by lia.
    replace (s - 1 + 1) with s by lia. done.
Qed.

(** The replacement lines when the original line at [end] exists. *)
Lemma replacement_lines_in_range (doc : list pystr) (e : Z) (code : pystr) :
  0 <= e < len doc ->
  exists orig_line,
    doc !! Z.to_nat e = Some orig_line /\
    replacement_lines doc e code =
      Ok (if needs_newline (splitlines code) && endswith_nl orig_line
          then add_newline (splitlines code) else splitlines code).
Proof.
  intros He. destruct (lookup_lt_is_Some_2 doc (Z.to_nat e)) as [x Hx];
    [unfold len in He; lia|].
  exists x. split; [done|]. unfold replacement_lines.
  destruct (needs_newline _); [|done].
  rewrite (getitem_in_range doc e x) by (done || lia). done.
Qed.

(** A replacement that is empty or ends in a newline is taken as it is,
    and the original document is not looked at. *)
Lemma replacement_lines_terminated (doc : list pystr) (e : Z) (code : pystr) :
  needs_newline (splitlines code) = false ->
  replacement_lines doc e code = Ok (splitlines code).
Proof. intros H. unfold replacement_lines. by rewrite H. Qed.

(** A valid edit replaces its range of the document by its replacement
    lines. *)
Lemma apply_fix_valid (doc : list pystr) (fx : fix_t) :
  valid (len doc) fx ->
  exists code orig_line,
    suggestedCode fx = Some code /\
    doc !! Z.to_nat (end_line fx - 1) = Some orig_line /\
    let r := if needs_newline (splitlines code) && endswith_nl orig_line
             then add_newline (splitlines code) else splitlines code in
    replacement_lines doc (end_line fx - 1) code = Ok r /\
    apply_fix doc doc fx =
      Ok (take (Z.to_nat (start_line fx - 1)) doc ++ r
          ++ drop (Z.to_nat (end_line fx)) doc).
Proof.
  intros [[[s Hs] [code Hc]] [Hse He]].
  destruct (replacement_lines_in_range doc (end_line fx - 1) code)
    as (orig_line & Hl & Hr); [lia|].
  exists code, orig_line. repeat split; try done.
  rewrite (apply_fix_unfold doc doc fx s code Hs Hc), Hr. simpl.
  assert (start_line fx = s) as Hst
    by (unfold start_line, sort_key; by rewrite Hs).
  rewrite setslice_in_range by lia. by rewrite Hst.
Qed.

(** ** The scenarios of the specification *)

(** C8: on the document ["a\n","b\n","c\n"], the edits {1,1,"X\n"} and
    {2,3,"Y\nZ\n"} give ["X\n","Y\n","Z\n"], and the single edit
    {2,2,"B\n"} gives ["a\n","B\n","c\n"]. *)
Theorem scenario_patched_documents :
  modified_code_lines doc_abc
    [edit 1 1 (line "X"); edit 2 3 (line "Y" ++ line "Z")]
  = Ok [line "X"; line "Y"; line "Z"]
  /\ modified_code_lines doc_abc [edit 2 2 (line "B")]
     = Ok [line "a"; line "B"; line "c"].
Proof. split; vm_compute; reflexivity. Qed.

(** ** The confirmation gate *)

(** Nothing is written unless the user accepts. *)
Lemma apply_fixes_writes_only_on_yes (file_path : string)
    (fixes : list fix_t) (answer : reply) (fs : gmap string pystr) :
  answer <> Yes -> disk (apply_fixes file_path fixes answer fs) = fs.
Proof.
  intros Hans. unfold apply_fixes.
  repeat case_match; simpl; congruence.
Qed.

(** The prompt is reached exactly when the call ends as applied, aborted or
    interrupted. *)
Lemma apply_fixes_asked (file_path : string) (fixes : list fix_t)
    (answer : reply) (fs : gmap string pystr) :
  Confirm_ask answer ∈ console (apply_fixes file_path fixes answer fs) ->
  ended (apply_fixes file_path fixes answer fs) =
    match answer with
    | Yes => Applied
    | No => Aborted
    | Interrupt => Failed KeyboardInterrupt
    end.
Proof.
  unfold apply_fixes.
  repeat case_match; simpl; try done; intros Hev; exfalso; no_such_event Hev.
Qed.

(** C1: with a negative answer the files after the call are the files
    before it, and when the user was asked and declined the call ends as
    aborted, with the message that nothing was changed, not as failed. *)
Theorem no_write_on_decline (file_path : string) (fixes : list fix_t)
    (fs : gmap string pystr) :
  let r := apply_fixes file_path fixes No fs in
  disk r = fs
  /\ (declined r -> ended r = Aborted /\ AbortedNoChanges ∈ console r).
Proof.
  intros r. split; [by apply apply_fixes_writes_only_on_yes|].
  intros Hdecl.
  split; [by apply (apply_fixes_asked file_path fixes No fs)|].
  revert Hdecl. unfold r, declined, apply_fixes.
  repeat case_match; simpl; intros Hev;
    first [ exfalso; no_such_event Hev | repeat constructor ].
Qed.

Lemma no_write_on_decline_witness :
  let fs : gmap string pystr := {[ "c.ts"%string := line "a" ++ str "b" ]} in
  let r := apply_fixes "c.ts" [edit 1 1 (str "X")] No fs in
  declined r /\ disk r = fs /\ ended r = Aborted.
Proof.
  intros fs r.
  assert (declined r) as Hd by (vm_compute; repeat constructor).
  split; [exact Hd|].
  destruct (no_write_on_decline "c.ts" [edit 1 1 (str "X")] fs)
    as (H1 & H2).
  split; [exact H1 | exact (proj1 (H2 Hd))].
Defined.

(** ** [sorted] *)

Section SortedFacts.
Context {A : Type} (key : A -> Z).

Lemma insert_desc_perm (x : A) (l : list A) :
  insert_desc key x l ≡ₚ x :: l.
Proof.
  induction l as [|y l IH]; simpl; [done|].
  case_match; [|done]. rewrite IH. apply Permutation_swap.
Qed.

(** The sorted list has the elements of the input. *)
Lemma sorted_desc_perm (l : list A) : sorted_desc key l ≡ₚ l.
Proof.
  induction l as [|x l IH]; simpl; [done|].
  by rewrite insert_desc_perm, IH.
Qed.

Lemma insert_desc_sorted (x : A) (l : list A) :
  StronglySorted (desc key) l -> StronglySorted (desc key) (insert_desc key x l).
Proof.
  induction 1 as [|y l Hs IH Hy]; simpl.
  - by repeat constructor.
  - case_match.
    + constructor; [done|]. rewrite insert_desc_perm.
      constructor; [unfold desc; lia | done].
    + constructor; [by constructor|].
      constructor; [unfold desc; lia|].
      eapply Forall_impl; [exact Hy|]. unfold desc. intros; simpl in *. lia.
Qed.

(** The sorted list has descending keys. *)
Lemma sorted_desc_sorted (l : list A) :
  StronglySorted (desc key) (sorted_desc key l).
Proof.
  induction l as [|x l IH]; simpl; [constructor|].
  by apply insert_desc_sorted.
Qed.

Lemma insert_desc_stable (k : Z) (x : A) (l : list A) :
  filter (λ y, key y = k) (insert_desc key x l)
  = filter (λ y, key y = k) (x :: l).
Proof.
  induction l as [|y l IH]; simpl; [done|].
  case_match; [|done].
  rewrite (filter_cons _ y), IH, !filter_cons.
  repeat case_decide; try done; lia.
Qed.

(** The sort is stable: the fixes of one key keep their input order. *)
Lemma sorted_desc_stable (k : Z) (l : list A) :
  filter (λ y, key y = k) (sorted_desc key l) = filter (λ y, key y = k) l.
Proof.
  induction l as [|x l IH]; simpl; [done|].
  by rewrite insert_desc_stable, !filter_cons, IH.
Qed.

(** Where the new element goes. *)
Lemma insert_desc_split (x : A) (l : list A) :
  StronglySorted (desc key) l ->
  exists hi lo,
    l = hi ++ lo /\ insert_desc key x l = hi ++ x :: lo /\
    Forall (λ y, key x < key y) hi /\ Forall (λ y, key y <= key x) lo.
Proof.
  induction 1 as [|y l Hs IH Hy]; simpl.
  - by exists [], [].
  - case_match.
    + destruct IH as (hi & lo & -> & -> & Hhi & Hlo).
      exists (y :: hi), lo. repeat split; try done.
      constructor; [lia | done].
    + exists [], (y :: l). repeat split; try done.
      constructor; [lia|].
      eapply Forall_impl; [exact Hy|]. unfold desc. intros; simpl in *. lia.
Qed.

Lemma insert_desc_map (g : A -> A) (x : A) (l : list A) :
  Forall (λ y, (key (g x) <? key (g y)) = (key x <? key y)) l ->
  insert_desc key (g x) (map g l) = map g (insert_desc key x l).
Proof.
  induction 1 as [|y l Hy _ IH]; simpl; [done|].
  rewrite Hy. case_match; simpl; [by rewrite IH | done].
Qed.

(** Sorting commutes with a map that keeps the order of the keys. *)
Lemma sorted_desc_map (g : A -> A) (l : list A) :
  (forall x y, x ∈ l -> y ∈ l ->
     (key (g x) <? key (g y)) = (key x <? key y)) ->
  sorted_desc key (map g l) = map g (sorted_desc key l).
Proof.
  induction l as [|x l IH]; simpl; intros Hg; [done|].
  rewrite IH by (intros; apply Hg; by constructor).
  apply insert_desc_map, Forall_forall. intros y Hy.
  rewrite sorted_desc_perm in Hy.
  apply Hg; [by left | by right].
Qed.

(** Two lists of descending keys with the same fixes of each key, in the
    same order, are equal. *)
Lemma stable_sort_unique (l1 l2 : list A) :
  StronglySorted (desc key) l1 -> StronglySorted (desc key) l2 ->
  (forall k, filter (λ y, key y = k) l1 = filter (λ y, key y = k) l2) ->
  l1 = l2.
Proof.
  intros H1. revert l2.
  induction H1 as [|x l1 Hs1 IH Hx]; intros l2 H2 Hf.
  - destruct l2 as [|y l2]; [done|].
    specialize (Hf (key y)). rewrite filter_cons_True in Hf by done.
    done.
  - destruct H2 as [|y l2 Hs2 Hy].
    { specialize (Hf (key x)). rewrite filter_cons_True in Hf by done.
      done. }
    assert (key x = key y) as Hk.
    { destruct (decide (key x = key y)) as [|Hne]; [done|]. exfalso.
      assert (x ∈ l2) as Hx2.
      { pose proof (Hf (key x)) as Hfx.
        rewrite filter_cons_True, filter_cons_False in Hfx by done.
        assert (x ∈ filter (λ y0, key y0 = key x) l2) as Hin
          by (rewrite <- Hfx; left).
        by apply list_elem_of_filter in Hin as [_ ?]. }
      assert (y ∈ l1) as Hy1.
      { pose proof (Hf (key y)) as Hfy.
        rewrite filter_cons_False, filter_cons_True in Hfy by done.
        assert (y ∈ filter (λ y0, key y0 = key y) l1) as Hin
          by (rewrite Hfy; left).
        by apply list_elem_of_filter in Hin as [_ ?]. }
      rewrite Forall_forall in Hx, Hy.
      specialize (Hx y Hy1). specialize (Hy x Hx2). unfold desc in *. lia. }
    pose proof (Hf (key x)) as Hfx.
    rewrite !filter_cons_True in Hfx by done.
    injection Hfx as -> _. f_equal. apply IH; [done|].
    intros k. specialize (Hf k). rewrite !filter_cons in Hf.
    case_decide; [by injection Hf | done].
Qed.
End SortedFacts.

(** ** The loop *)

Lemma apply_sorted_app (orig cur : list pystr) (l1 l2 : list fix_t) :
  apply_sorted orig cur (l1 ++ l2) =
    cur' ← apply_sorted orig cur l1; apply_sorted orig cur' l2.
Proof.
  revert cur. induction l1 as [|f l1 IH]; intros cur; simpl; [done|].
  destruct (apply_fix orig cur f); simpl; [apply IH | done].
Qed.

(** A fix in range does not raise, whatever the working copy has become. *)
Lemma apply_fix_ok (doc cur : list pystr) (fx : fix_t) :
  valid (len doc) fx -> exists out, apply_fix doc cur fx = Ok out.
Proof.
  intros [[[s Hs] [code Hc]] [Hse He]].
  destruct (replacement_lines_in_range doc (end_line fx - 1) code)
    as (orig_line & _ & Hr); [lia|].
  rewrite (apply_fix_unfold doc cur fx s code Hs Hc), Hr. simpl. eauto.
Qed.

(** The loop over fixes in range does not raise. *)
Lemma apply_sorted_ok (doc cur : list pystr) (fixes : list fix_t) :
  Forall (valid (len doc)) fixes ->
  exists out, apply_sorted doc cur fixes = Ok out.
Proof.
  intros H. revert cur. induction H as [|f l Hf _ IH]; intros cur; simpl.
  - eauto.
  - destruct (apply_fix_ok doc cur f Hf) as [d ->]. simpl. apply IH.
Qed.

(** A fix on which the body raises makes the loop raise. *)
Lemma apply_sorted_raises (orig cur : list pystr) (fixes : list fix_t)
    (fx : fix_t) :
  fx ∈ fixes -> (forall c, is_ok (apply_fix orig c fx) = false) ->
  is_ok (apply_sorted orig cur fixes) = false.
Proof.
  intros Hin Hfx. revert cur.
  induction fixes as [|y l IH]; intros cur; simpl.
  - by apply elem_of_nil in Hin.
  - apply elem_of_cons in Hin as [<-|Hin].
    + specialize (Hfx cur). by destruct (apply_fix orig cur fx).
    + destruct (apply_fix orig cur y); simpl; [by apply IH | done].
Qed.

(** With every [lineNumber] present the fixes are sorted. *)
Lemma sorted_fixes_ok (fixes : list fix_t) :
  Forall (λ fx, is_Some (lineNumber fx)) fixes ->
  sorted_fixes fixes = Ok (sorted_desc sort_key fixes).
Proof.
  intros H. unfold sorted_fixes.
  assert (forallb (λ fx, bool_decide (is_Some (lineNumber fx))) fixes
          = true) as ->; [|done].
  apply Is_true_true, forallb_True.
  eapply Forall_impl; [exact H|]. intros fx Hfx. by apply bool_decide_pack.
Qed.

(** Valid edits never make the patch computation raise. *)
Lemma modified_code_lines_ok (doc : list pystr) (fixes : list fix_t) :
  Forall (valid (len doc)) fixes ->
  exists out, modified_code_lines doc fixes = Ok out.
Proof.
  intros Hv. unfold modified_code_lines.
  rewrite sorted_fixes_ok
    by (eapply Forall_impl; [exact Hv|]; by intros fx [[? _] _]).
  simpl. apply apply_sorted_ok. by rewrite sorted_desc_perm.
Qed.

(** With one [lineNumber] absent the sort raises. *)
Lemma sorted_fixes_missing_key (fixes : list fix_t) (fx : fix_t) :
  fx ∈ fixes -> lineNumber fx = None ->
  sorted_fixes fixes = Raise (KeyError "lineNumber").
Proof.
  intros Hin Hnone. unfold sorted_fixes.
  destruct (forallb _ fixes) eqn:E; [|done]. exfalso.
  apply Is_true_true, forallb_True in E.
  rewrite Forall_forall in E. specialize (E fx Hin).
  apply bool_decide_unpack in E as [? E]. congruence.
Qed.

(** When the patch computation raises, the call fails before it shows or
    writes anything. *)
Lemma apply_fixes_raise (file_path : string) (fixes : list fix_t)
    (answer : reply) (fs : gmap string pystr) (text : pystr) (e : exn) :
  fs !! file_path = Some text -> fixes <> [] ->
  modified_code_lines (readlines text) fixes = Raise e ->
  apply_fixes file_path fixes answer fs = Run (Failed e) [] fs.
Proof.
  intros Hf Hne Hr. unfold apply_fixes. rewrite Hf, Hr.
  by destruct fixes.
Qed.

(** ** Line numbers outside the document *)

(** A slice that starts past the end appends. *)
Lemma setslice_past_end {A} (l r : list A) (lo hi : Z) :
  len l <= lo -> setslice l lo hi r = l ++ r.
Proof.
  intros Hlo. unfold setslice. pose proof (len_nonneg l) as Hl.
  pose proof (adjust_index_bounds (len l) hi Hl).
  assert (adjust_index (len l) lo = len l) as ->
    by (unfold adjust_index; repeat case_match; lia).
  rewrite Z.max_l by lia. unfold len. rewrite Nat2Z.id.
  by rewrite take_ge, drop_ge, app_nil_r by lia.
Qed.

(** A slice that ends past the end is cut at the end. *)
Lemma setslice_clamped {A} (l r : list A) (lo hi : Z) :
  0 <= lo <= len l -> len l <= hi ->
  setslice l lo hi r = take (Z.to_nat lo) l ++ r.
Proof.
  intros Hlo Hhi. unfold setslice.
  assert (adjust_index (len l) lo = lo) as ->
    by (unfold adjust_index; repeat case_match; lia).
  assert (adjust_index (len l) hi = len l) as ->
    by (unfold adjust_index; repeat case_match; lia).
  rewrite Z.max_r by lia. unfold len. rewrite Nat2Z.id.
  by rewrite drop_ge, app_nil_r by lia.
Qed.

Lemma needs_newline_false (code : pystr) :
  code = [] \/ endswith_nl code = true ->
  needs_newline (splitlines code) = false.
Proof.
  rewrite needs_newline_splitlines. intros [->| ->]; [done|].
  by rewrite andb_false_r.
Qed.

Lemma needs_newline_true (code : pystr) :
  code <> [] -> endswith_nl code = false ->
  needs_newline (splitlines code) = true.
Proof.
  rewrite needs_newline_splitlines. intros Hne ->.
  by rewrite bool_decide_true.
Qed.

(** C2, the claim at the scenario of the specification: on a document of
    three lines an edit at line 5 is applied, the document grows by the
    replacement line, and nothing is reported. *)
Lemma start_line_past_end_is_applied :
  modified_code_lines doc_abc [Fix (Some 5) None (Some (line "X"))]
  = Ok [line "a"; line "b"; line "c"; line "X"]
  /\ modified_code_lines doc_abc [Fix (Some 5) None (Some (line "X"))]
     <> Ok doc_abc.
Proof. split; [vm_compute; reflexivity | vm_compute; discriminate]. Qed.

(** C2, amended: line numbers are not checked. A fix whose replacement
    text is empty or ends in a newline is applied whatever its line
    numbers: past the end it appends its lines, and with only its last
    line past the end it replaces everything from its first line on. A fix
    whose replacement text is not empty and has no final newline raises
    [IndexError] when its last line is past the end, or so far below 1
    that it does not count a line from the end, and the call fails without
    asking or writing. *)
Theorem line_numbers_are_not_checked (doc : list pystr) (fx : fix_t)
    (s : Z) (code : pystr) :
  lineNumber fx = Some s -> suggestedCode fx = Some code ->
  (code = [] \/ endswith_nl code = true ->
     (exists out, modified_code_lines doc [fx] = Ok out)
     /\ (len doc < s ->
         modified_code_lines doc [fx] = Ok (doc ++ splitlines code))
     /\ (1 <= s <= len doc -> len doc < end_line fx ->
         modified_code_lines doc [fx]
         = Ok (take (Z.to_nat (s - 1)) doc ++ splitlines code)))
  /\ (code <> [] -> endswith_nl code = false ->
      len doc < end_line fx \/ end_line fx <= - len doc ->
      modified_code_lines doc [fx] = Raise IndexError
      /\ forall file_path answer fs text,
           fs !! file_path = Some text -> readlines text = doc ->
           apply_fixes file_path [fx] answer fs
           = Run (Failed IndexError) [] fs).
Proof.
  intros Hs Hc. rewrite modified_single.
  rewrite (apply_fix_unfold doc doc fx s code Hs Hc). split.
  - intros Hterm. apply needs_newline_false in Hterm.
    rewrite (replacement_lines_terminated _ _ _ Hterm). simpl.
    split; [eauto|]. split.
    + intros Hlt. by rewrite setslice_past_end by lia.
    + intros Hlo Hhi. by rewrite setslice_clamped by lia.
  - intros Hne Hnl He.
    assert (replacement_lines doc (end_line fx - 1) code = Raise IndexError)
      as Hr.
    { unfold replacement_lines. rewrite needs_newline_true by done.
      destruct He; [by rewrite getitem_past_end by lia|].
      by rewrite getitem_before_start by lia. }
    rewrite Hr. split; [done|].
    intros file_path answer fs text Hf Hd.
    apply (apply_fixes_raise _ _ _ _ text); [done..|].
    rewrite Hd, modified_single.
    by rewrite (apply_fix_unfold doc doc fx s code Hs Hc), Hr.
Qed.

Lemma line_numbers_are_not_checked_witness :
  modified_code_lines doc_abc [Fix (Some 5) None (Some (line "X"))]
  = Ok (doc_abc ++ splitlines (line "X"))
  /\ modified_code_lines doc_abc [Fix (Some 5) None (Some (str "X"))]
     = Raise IndexError.
Proof.
  split.
  - destruct (line_numbers_are_not_checked doc_abc
                (Fix (Some 5) None (Some (line "X"))) 5 (line "X")
                eq_refl eq_refl) as [H _].
    destruct H as (_ & H & _); [right; reflexivity|].
    apply H. vm_compute. reflexivity.
  - destruct (line_numbers_are_not_checked doc_abc
                (Fix (Some 5) None (Some (str "X"))) 5 (str "X")
                eq_refl eq_refl) as [_ H].
    destruct H as [H _]; [discriminate | reflexivity | |exact H].
    left. vm_compute. reflexivity.
Defined.

(** ** Overlapping edits *)

(** C5, the claim at two overlapping edits: lines 1-2 replaced by ["X\n"]
    and line 2 replaced by ["Y\n","Z\n"]. Both are applied, and the outcome
    is neither what the lower edit alone gives nor what the higher one
    alone gives. *)
Lemma overlapping_edits_are_both_applied :
  let f := edit 1 2 (line "X") in
  let g := edit 2 2 (line "Y" ++ line "Z") in
  overlap f g
  /\ modified_code_lines doc_abc [f; g] = Ok [line "X"; line "Z"; line "c"]
  /\ modified_code_lines doc_abc [f] = Ok [line "X"; line "c"]
  /\ modified_code_lines doc_abc [g]
     = Ok [line "a"; line "Y"; line "Z"; line "c"].
Proof.
  intros f g. split; [split; vm_compute; discriminate|].
  repeat split; vm_compute; reflexivity.
Qed.

(** C5, amended: of two valid edits, overlapping or not, none is
    rejected. The one with the higher first line is applied to the document,
    then the other is applied to the outcome at its own line numbers; with
    equal first lines the order is that of the list. *)
Theorem two_edits_are_applied_in_sequence (doc : list pystr) (f g : fix_t) :
  valid (len doc) f -> valid (len doc) g ->
  let first := if start_line f <? start_line g then g else f in
  let second := if start_line f <? start_line g then f else g in
  exists mid out,
    apply_fix doc doc first = Ok mid /\
    apply_fix doc mid second = Ok out /\
    modified_code_lines doc [f; g] = Ok out.
Proof.
  intros Hf Hg first second.
  assert (valid (len doc) first /\ valid (len doc) second) as [H1 H2]
    by (unfold first, second; case_match; done).
  destruct (apply_fix_ok doc doc first H1) as [mid Hmid].
  destruct (apply_fix_ok doc mid second H2) as [out Hout].
  exists mid, out. repeat split; try done.
  unfold modified_code_lines.
  rewrite sorted_fixes_ok
    by (repeat constructor; [apply Hf | apply Hg]).
  simpl. unfold start_line in *. fold first second.
  assert ((if sort_key f <? sort_key g then [g; f] else [f; g])
          = [first; second]) as ->
    by (unfold first, second; by case_match).
  simpl. rewrite Hmid. simpl. rewrite Hout. done.
Qed.

Lemma two_edits_are_applied_in_sequence_witness :
  let f := edit 1 2 (line "X") in
  let g := edit 2 2 (line "Y" ++ line "Z") in
  exists mid out,
    apply_fix doc_abc doc_abc g = Ok mid /\
    apply_fix doc_abc mid f = Ok out /\
    modified_code_lines doc_abc [f; g] = Ok out.
Proof.
  intros f g.
  apply (two_edits_are_applied_in_sequence doc_abc f g).
  - repeat split; try (by eexists); vm_compute; discriminate.
  - repeat split; try (by eexists); vm_compute; discriminate.
Defined.

(** ** Fixes with absent keys *)

(** C6, the claim at a list of two candidates, the first without
    [lineNumber]: the whole computation raises [KeyError], while the second
    candidate alone is applied. *)
Lemma missing_line_number_fails_the_whole_list :
  modified_code_lines doc_abc
    [Fix None None (Some (line "X")); edit 2 2 (line "B")]
  = Raise (KeyError "lineNumber")
  /\ modified_code_lines doc_abc [edit 2 2 (line "B")]
     = Ok [line "a"; line "B"; line "c"].
Proof. split; vm_compute; reflexivity. Qed.

(** The body of the loop raises on a fix without one of its keys. *)
Lemma apply_fix_malformed (orig cur : list pystr) (fx : fix_t) :
  ~ well_formed fx -> is_ok (apply_fix orig cur fx) = false.
Proof.
  intros Hwf. unfold apply_fix.
  destruct (lineNumber fx) as [s|] eqn:Hs; simpl; [|done].
  destruct (suggestedCode fx) as [code|] eqn:Hc; simpl; [|done].
  exfalso. apply Hwf. unfold well_formed. rewrite Hs, Hc. eauto.
Qed.

(** C6, amended: a candidate without [lineNumber] makes the sort raise
    [KeyError] before any candidate is applied, and a candidate without
    one of the keys that are read makes the call fail as a whole: no
    candidate is dropped or counted, the user is not asked and nothing is
    written. *)
Theorem malformed_fix_fails_the_whole_call (file_path : string)
    (fixes : list fix_t) (answer : reply) (fs : gmap string pystr)
    (text : pystr) (fx : fix_t) :
  fs !! file_path = Some text -> fx ∈ fixes -> ~ well_formed fx ->
  (lineNumber fx = None ->
   modified_code_lines (readlines text) fixes
   = Raise (KeyError "lineNumber"))
  /\ exists e,
       modified_code_lines (readlines text) fixes = Raise e /\
       apply_fixes file_path fixes answer fs = Run (Failed e) [] fs.
Proof.
  intros Hf Hin Hwf.
  assert (fixes <> []) as Hne by (intros ->; by apply elem_of_nil in Hin).
  assert (lineNumber fx = None ->
          modified_code_lines (readlines text) fixes
          = Raise (KeyError "lineNumber")) as Hkey.
  { intros Hnone. unfold modified_code_lines.
    by rewrite (sorted_fixes_missing_key fixes fx). }
  split; [done|].
  assert (exists e, modified_code_lines (readlines text) fixes = Raise e)
    as [e He].
  { destruct (lineNumber fx) as [s|] eqn:Hs; [|eauto].
    unfold modified_code_lines.
    destruct (sorted_fixes fixes) as [sorted|e] eqn:Hsort; simpl; [|eauto].
    assert (sorted = sorted_desc sort_key fixes) as ->.
    { unfold sorted_fixes in Hsort. case_match; congruence. }
    pose proof (apply_sorted_raises (readlines text) (readlines text)
                  (sorted_desc sort_key fixes) fx) as Hr.
    destruct (apply_sorted _ _ _) as [out|e]; [|eauto].
    exfalso. simpl in Hr. apply diff_true_false. apply Hr.
    - by rewrite sorted_desc_perm.
    - intros c. by apply apply_fix_malformed. }
  exists e. split; [done|]. by apply (apply_fixes_raise _ _ _ _ text).
Qed.

Lemma malformed_fix_fails_the_whole_call_witness :
  let fs : gmap string pystr :=
    {[ "c.ts"%string := line "a" ++ line "b" ++ line "c" ]} in
  let fixes := [Fix None None (Some (line "X")); edit 2 2 (line "B")] in
  exists e,
    modified_code_lines (readlines (line "a" ++ line "b" ++ line "c")) fixes
    = Raise e /\
    apply_fixes "c.ts" fixes Yes fs = Run (Failed e) [] fs.
Proof.
  intros fs fixes.
  apply (malformed_fix_fails_the_whole_call "c.ts" fixes Yes fs
           (line "a" ++ line "b" ++ line "c")
           (Fix None None (Some (line "X")))).
  - reflexivity.
  - left.
  - intros [[s Hs] _]. discriminate Hs.
Defined.

(** ** An absent [endLineNumber] *)

(** The body of the loop does not tell an absent [endLineNumber] from one
    equal to [lineNumber]. *)
Lemma apply_fix_with_end_line (orig cur : list pystr) (fx : fix_t) :
  apply_fix orig cur (with_end_line fx) = apply_fix orig cur fx.
Proof.
  destruct fx as [[s|] [e|] c]; try done.
  unfold with_end_line, apply_fix. simpl.
  replace (s - 1 + 1 - 1) with (s - 1) by lia.
  destruct c as [code|]; simpl; [|done].
  destruct (replacement_lines orig (s - 1) code); simpl; [|done].
  replace (s - 1 + 1) with s by lia. done.
Qed.

Lemma sort_key_with_end_line (fx : fix_t) :
  sort_key (with_end_line fx) = sort_key fx.
Proof. by destruct fx as [[s|] [e|] c]. Qed.

Lemma apply_sorted_with_end_line (orig cur : list pystr)
    (fixes : list fix_t) :
  apply_sorted orig cur (map with_end_line fixes)
  = apply_sorted orig cur fixes.
Proof.
  revert cur. induction fixes as [|f l IH]; intros cur; simpl; [done|].
  rewrite apply_fix_with_end_line.
  destruct (apply_fix orig cur f); simpl; [apply IH | done].
Qed.

(** Making every absent [endLineNumber] explicit changes nothing. *)
Lemma modified_with_end_line (doc : list pystr) (fixes : list fix_t) :
  modified_code_lines doc (map with_end_line fixes)
  = modified_code_lines doc fixes.
Proof.
  unfold modified_code_lines, sorted_fixes.
  assert (forallb (λ fx, bool_decide (is_Some (lineNumber fx)))
            (map with_end_line fixes)
          = forallb (λ fx, bool_decide (is_Some (lineNumber fx))) fixes)
    as ->.
  { induction fixes as [|[[s|] [e|] c] l IH]; simpl; by rewrite ?IH. }
  case_match; [|done]. simpl.
  rewrite sorted_desc_map
    by (intros; by rewrite !sort_key_with_end_line).
  apply apply_sorted_with_end_line.
Qed.

(** C7: a fix without [endLineNumber] is the fix whose [endLineNumber] is
    its [lineNumber]; in range it replaces the one line at [lineNumber] by
    its replacement lines, however many. *)
Theorem end_line_defaults_to_start_line (doc : list pystr) (fx : fix_t)
    (s : Z) (code : pystr) :
  lineNumber fx = Some s -> endLineNumber fx = None ->
  suggestedCode fx = Some code ->
  end_line fx = s
  /\ (forall orig cur,
        apply_fix orig cur fx = apply_fix orig cur (edit s s code))
  /\ modified_code_lines doc [fx] = modified_code_lines doc [edit s s code]
  /\ (1 <= s <= len doc ->
      exists r,
        replacement_lines doc (s - 1) code = Ok r /\
        modified_code_lines doc [fx]
        = Ok (take (Z.to_nat (s - 1)) doc ++ r ++ drop (Z.to_nat s) doc)).
Proof.
  intros Hs He Hc.
  assert (with_end_line fx = edit s s code) as Hw
    by (destruct fx; simpl in *; by subst).
  assert (end_line fx = s) as Hend
    by (unfold end_line, start_line, sort_key; by rewrite He, Hs).
  split; [done|]. split; [|split].
  - intros orig cur. by rewrite <- Hw, apply_fix_with_end_line.
  - by rewrite !modified_single, <- Hw, apply_fix_with_end_line.
  - intros Hr.
    destruct (apply_fix_valid doc fx) as (code' & orig_line & Hc' & _ & H).
    { split; [split; [by exists s | by exists code]|].
      rewrite Hend. unfold start_line, sort_key. rewrite Hs. simpl. lia. }
    simpl in H. destruct H as [H1 H2].
    rewrite Hc in Hc'. injection Hc' as <-.
    rewrite Hend in *. eexists. split; [exact H1|].
    rewrite modified_single, H2. unfold start_line, sort_key.
    by rewrite Hs.
Qed.

Lemma end_line_defaults_to_start_line_witness :
  let fx := Fix (Some 2) None (Some (line "P" ++ line "Q")) in
  end_line fx = 2
  /\ modified_code_lines doc_abc [fx]
     = modified_code_lines doc_abc [edit 2 2 (line "P" ++ line "Q")]
  /\ modified_code_lines doc_abc [fx]
     = Ok [line "a"; line "P"; line "Q"; line "c"].
Proof.
  intros fx.
  destruct (end_line_defaults_to_start_line doc_abc fx 2
              (line "P" ++ line "Q") eq_refl eq_refl eq_refl)
    as (H1 & _ & H3 & H4).
  split; [exact H1|]. split; [exact H3|].
  destruct H4 as (r & Hr & Hm); [vm_compute; split; discriminate|].
  rewrite Hm. vm_compute in Hr. injection Hr as <-. reflexivity.
Defined.

(** ** Line number 0 *)

(** C9: on a document that is not empty, a fix with [lineNumber] 0 and
    [endLineNumber] 0 or absent is not rejected: the test of line 84 reads
    the last line of the document, and the replacement lines are inserted
    just before that last line. *)
Theorem line_number_zero_inserts_before_last_line (doc : list pystr)
    (fx : fix_t) (code last_line : pystr) :
  last doc = Some last_line ->
  lineNumber fx = Some 0 ->
  endLineNumber fx = None \/ endLineNumber fx = Some 0 ->
  suggestedCode fx = Some code ->
  let r := if needs_newline (splitlines code) && endswith_nl last_line
           then add_newline (splitlines code) else splitlines code in
  replacement_lines doc (-1) code = Ok r
  /\ modified_code_lines doc [fx] = Ok (removelast doc ++ r ++ [last_line]).
Proof.
  intros Hlast Hs He Hc r.
  assert (replacement_lines doc (-1) code = Ok r) as Hr.
  { unfold replacement_lines, r.
    destruct (needs_newline _); [|done].
    by rewrite (getitem_minus_one doc last_line Hlast). }
  split; [done|].
  assert (end_line fx = 0) as Hend.
  { unfold end_line, start_line, sort_key. rewrite Hs.
    by destruct He as [-> | ->]. }
  rewrite modified_single, (apply_fix_unfold doc doc fx 0 code Hs Hc).
  rewrite Hend. change (0 - 1) with (-1). rewrite Hr. simpl. f_equal.
  apply last_Some in Hlast as [front ->].
  rewrite removelast_last. unfold setslice, adjust_index.
  rewrite len_app. pose proof (len_nonneg front) as Hf.
  change (len [last_line]) with 1.
  repeat case_match; try lia.
  replace (-1 + (len front + 1)) with (len front) by lia.
  rewrite Z.max_l by lia. unfold len. rewrite Nat2Z.id.
  by rewrite take_app_length, drop_app_length.
Qed.

Lemma line_number_zero_inserts_before_last_line_witness :
  modified_code_lines doc_abc [Fix (Some 0) None (Some (str "X"))]
  = Ok [line "a"; line "b"; line "X"; line "c"].
Proof.
  destruct (line_number_zero_inserts_before_last_line doc_abc
              (Fix (Some 0) None (Some (str "X"))) (str "X") (line "c")
              eq_refl eq_refl (or_introl eq_refl) eq_refl) as [_ H].
  exact H.
Defined.

(** ** Terminators *)

(** The last replacement line ends in a newline when the text does. *)
Lemma endswith_nl_last_line (code final : pystr) :
  last (splitlines code) = Some final ->
  endswith_nl final = endswith_nl code.
Proof.
  intros Hl. unfold endswith_nl.
  rewrite <- (last_concat _ _ (splitlines_nonempty code) Hl).
  by rewrite splitlines_concat.
Qed.

Lemma last_add_newline (l : list pystr) (final : pystr) :
  last l = Some final -> last (add_newline l) = Some (final ++ [NL]).
Proof. intros Hl. unfold add_newline. rewrite Hl. apply last_snoc. Qed.

Lemma endswith_nl_snoc (s : pystr) : endswith_nl (s ++ [NL]) = true.
Proof. unfold endswith_nl. by rewrite last_snoc, bool_decide_true. Qed.

(** C4: an edit that ends before the last line leaves the last line as it
    is; an edit that replaces the last line, where that line has no
    newline, by a text without a final newline splices the lines of the
    text as they are, so that the document still ends without a newline;
    and in general the last replacement line of a text without a final
    newline ends in a newline exactly when the original line at
    [endLineNumber] does. *)
Theorem terminator_preservation (doc : list pystr) (fx : fix_t)
    (code : pystr) :
  valid (len doc) fx -> suggestedCode fx = Some code ->
  (forall last_line,
     last doc = Some last_line -> end_line fx < len doc ->
     exists out,
       modified_code_lines doc [fx] = Ok out /\ last out = Some last_line)
  /\ (forall last_line,
        last doc = Some last_line -> endswith_nl last_line = false ->
        end_line fx = len doc -> endswith_nl code = false ->
        let out :=
          take (Z.to_nat (start_line fx - 1)) doc ++ splitlines code in
        modified_code_lines doc [fx] = Ok out
        /\ (code <> [] ->
            exists final,
              last out = Some final /\ endswith_nl final = false))
  /\ (code <> [] -> endswith_nl code = false ->
      exists orig_line r final,
        doc !! Z.to_nat (end_line fx - 1) = Some orig_line /\
        replacement_lines doc (end_line fx - 1) code = Ok r /\
        last r = Some final /\
        endswith_nl final = endswith_nl orig_line /\
        modified_code_lines doc [fx]
        = Ok (take (Z.to_nat (start_line fx - 1)) doc ++ r
              ++ drop (Z.to_nat (end_line fx)) doc)).
Proof.
  intros Hv Hc.
  destruct (apply_fix_valid doc fx Hv)
    as (code' & orig_line & Hc' & Horig & Hr & Hm).
  rewrite Hc in Hc'. injection Hc' as <-.
  rewrite modified_single, Hm.
  destruct Hv as [_ [Hse He]]. split; [|split].
  - intros last_line Hlast Hlt. eexists. split; [done|].
    apply last_Some in Hlast as [front ->].
    rewrite len_app in Hlt. change (len [last_line]) with 1 in Hlt.
    rewrite drop_app_le by (unfold len in *; lia).
    rewrite !app_assoc. apply last_snoc.
  - intros last_line Hlast Hnl Hend Hcode out.
    assert (orig_line = last_line) as ->.
    { rewrite last_lookup in Hlast.
      replace (Z.to_nat (end_line fx - 1)) with (pred (length doc)) in Horig
        by (unfold len in *; lia).
      congruence. }
    rewrite Hnl, andb_false_r.
    rewrite drop_ge, app_nil_r by (unfold len in *; lia).
    split; [done|]. intros Hne.
    destruct (splitlines_last code Hne) as (final & Hfinal & _).
    exists final. split.
    + unfold out. apply last_Some in Hfinal as [ls ->].
      rewrite app_assoc. apply last_snoc.
    + by rewrite (endswith_nl_last_line code final Hfinal).
  - intros Hne Hcode.
    destruct (splitlines_last code Hne) as (final & Hfinal & _).
    pose proof (endswith_nl_last_line code final Hfinal) as Hf.
    rewrite needs_newline_true in * by done. simpl in *.
    exists orig_line. eexists.
    exists (if endswith_nl orig_line then final ++ [NL] else final).
    repeat split; try done.
    + destruct (endswith_nl orig_line); [by apply last_add_newline | done].
    + destruct (endswith_nl orig_line);
        [apply endswith_nl_snoc | congruence].
Qed.

Lemma terminator_preservation_witness :
  let doc := [line "a"; line "b"; str "c"] in
  (exists out,
     modified_code_lines doc [edit 1 2 (str "X")] = Ok out /\
     last out = Some (str "c"))
  /\ modified_code_lines doc [edit 3 3 (str "Z")]
     = Ok [line "a"; line "b"; str "Z"]
  /\ modified_code_lines doc [edit 1 2 (str "X")]
     = Ok [line "X"; str "c"].
Proof.
  intros doc.
  assert (forall s e c, 1 <= s <= e -> e <= 3 -> valid (len doc) (edit s e c))
    as Hvalid.
  { intros s e c Hs He.
    split; [split; [by exists s | by exists c] | done]. }
  split; [|split].
  - destruct (terminator_preservation doc (edit 1 2 (str "X")) (str "X"))
      as (H & _ & _); [apply Hvalid; lia | reflexivity |].
    apply (H (str "c")); [reflexivity | vm_compute; reflexivity].
  - destruct (terminator_preservation doc (edit 3 3 (str "Z")) (str "Z"))
      as (_ & H & _); [apply Hvalid; lia | reflexivity |].
    destruct (H (str "c")) as [Hm _]; [reflexivity.. | exact Hm].
  - destruct (terminator_preservation doc (edit 1 2 (str "X")) (str "X"))
      as (_ & _ & H); [apply Hvalid; lia | reflexivity |].
    destruct H as (orig_line & r & final & _ & Hr & _ & _ & Hm);
      [discriminate | reflexivity |].
    rewrite Hm. vm_compute in Hr. injection Hr as <-. reflexivity.
Defined.

(** ** The order of the input list *)

(** C10, the claim at two fixes of equal [lineNumber]: exchanging them in
    the input list changes the patched document. *)
Lemma order_of_equal_keys_matters :
  let x := edit 1 1 (line "X") in
  let y := edit 1 1 (line "Y") in
  sort_key x = sort_key y
  /\ modified_code_lines doc_abc [x; y] = Ok [line "Y"; line "b"; line "c"]
  /\ modified_code_lines doc_abc [y; x] = Ok [line "X"; line "b"; line "c"]
  /\ modified_code_lines doc_abc [x; y] <> modified_code_lines doc_abc [y; x].
Proof.
  intros x y. split; [reflexivity|].
  split; [vm_compute; reflexivity|].
  split; [vm_compute; reflexivity|].
  vm_compute. discriminate.
Qed.

(** Lists with the same fixes of each key have the same fixes. *)
Lemma same_keys_same_elements (l l' : list fix_t) (fx : fix_t) :
  (forall k, filter (λ f, sort_key f = k) l = filter (λ f, sort_key f = k) l')
  -> fx ∈ l -> fx ∈ l'.
Proof.
  intros Hf Hin.
  assert (fx ∈ filter (λ f, sort_key f = sort_key fx) l) as H
    by (by apply list_elem_of_filter).
  rewrite Hf in H. by apply list_elem_of_filter in H as [_ ?].
Qed.

(** C10, amended: the patched document is a function of the document and
    of the list of fixes, and of that list it depends only on the fixes of
    each [lineNumber] and their order among themselves: the sort is stable,
    so that fixes of equal [lineNumber] are applied in their input order,
    and two input lists that agree on the sequence of fixes of every
    [lineNumber] give the same sorted list and the same outcome. *)
Theorem patch_depends_on_order_of_equal_keys_only (doc : list pystr)
    (fixes fixes' : list fix_t) :
  (forall k, filter (λ f, sort_key f = k) fixes
             = filter (λ f, sort_key f = k) fixes') ->
  (forall k, filter (λ f, sort_key f = k) (sorted_desc sort_key fixes)
             = filter (λ f, sort_key f = k) fixes)
  /\ sorted_desc sort_key fixes = sorted_desc sort_key fixes'
  /\ sorted_fixes fixes = sorted_fixes fixes'
  /\ modified_code_lines doc fixes = modified_code_lines doc fixes'.
Proof.
  intros Hf.
  split; [intros k; apply sorted_desc_stable|].
  assert (sorted_desc sort_key fixes = sorted_desc sort_key fixes') as Hs.
  { apply (stable_sort_unique sort_key); try apply sorted_desc_sorted.
    intros k. by rewrite !sorted_desc_stable. }
  split; [done|].
  assert (sorted_fixes fixes = sorted_fixes fixes') as Hsf.
  { unfold sorted_fixes. rewrite Hs.
    assert (forall l l' : list fix_t,
      (forall fx, fx ∈ l' -> fx ∈ l) ->
      forallb (λ fx, bool_decide (is_Some (lineNumber fx))) l = true ->
      forallb (λ fx, bool_decide (is_Some (lineNumber fx))) l' = true)
      as Hall.
    { intros l l' Hin Hl.
      apply Is_true_true, forallb_True, Forall_forall.
      apply Is_true_true, forallb_True in Hl.
      rewrite Forall_forall in Hl. intros fx Hfx. by apply Hl, Hin. }
    destruct (forallb _ fixes) eqn:E1, (forallb _ fixes') eqn:E2;
      try done.
    - rewrite (Hall fixes fixes') in E2; [done| |done].
      intros fx. by apply same_keys_same_elements.
    - rewrite (Hall fixes' fixes) in E1; [done| |done].
      intros fx. by apply same_keys_same_elements. }
  split; [done|]. unfold modified_code_lines. by rewrite Hsf.
Qed.

Lemma patch_depends_on_order_of_equal_keys_only_witness :
  let x := edit 1 1 (line "X") in
  let y := edit 2 3 (line "Y" ++ line "Z") in
  modified_code_lines doc_abc [x; y] = modified_code_lines doc_abc [y; x].
Proof.
  intros x y.
  apply (patch_depends_on_order_of_equal_keys_only doc_abc [x; y] [y; x]).
  intros k. rewrite !filter_cons, !filter_nil.
  change (sort_key x) with 1. change (sort_key y) with 2.
  repeat case_decide; try reflexivity; lia.
Defined.

(** ** Refinement of the reference implementation *)

(** *** Moved fixes *)

Lemma start_line_shift (d : Z) (g : fix_t) :
  is_Some (lineNumber g) -> start_line (shift_fix d g) = start_line g + d.
Proof. intros [s Hs]. destruct g as [[?|] ? ?]; by simplify_eq/=. Qed.

Lemma end_line_shift (d : Z) (g : fix_t) :
  is_Some (lineNumber g) -> end_line (shift_fix d g) = end_line g + d.
Proof. intros [s Hs]. destruct g as [[?|] [?|] ?]; by simplify_eq/=. Qed.

Lemma shift_fix_shift_fix (a b : Z) (g : fix_t) :
  shift_fix a (shift_fix b g) = shift_fix (b + a) g.
Proof.
  destruct g as [[s|] [e|] c]; unfold shift_fix; simpl;
    rewrite <- ?Z.add_assoc; done.
Qed.

Lemma shift_fix_0 (g : fix_t) : shift_fix 0 g = g.
Proof.
  destruct g as [[s|] [e|] c]; unfold shift_fix; simpl;
    rewrite ?Z.add_0_r; done.
Qed.

(** The range of a recomputed fix. *)
Lemma recompute_range (f : fix_t) (delta : Z) (g : fix_t) :
  is_Some (lineNumber g) ->
  let d := if bool_decide (end_line f < start_line g) then delta else 0 in
  start_line (recompute f delta g) = start_line g + d
  /\ end_line (recompute f delta g) = end_line g + d.
Proof.
  intros Hg. unfold recompute. case_bool_decide; simpl.
  - by rewrite start_line_shift, end_line_shift.
  - lia.
Qed.

Lemma recompute_well_formed (f : fix_t) (delta : Z) (g : fix_t) :
  well_formed g -> well_formed (recompute f delta g).
Proof.
  intros [[s Hs] [c Hc]]. unfold recompute. case_bool_decide; [|by split].
  destruct g as [? ? ?]; simpl in *; subst. split; by eexists.
Qed.

(** *** The loop behind a prefix *)

(** The body of the loop in terms of the range of the fix. *)
Lemma apply_fix_unfold_key (orig cur : list pystr) (fx : fix_t) (s : Z) :
  lineNumber fx = Some s ->
  apply_fix orig cur fx =
    code ← subscript "suggestedCode" (suggestedCode fx);
    r ← replacement_lines orig (end_line fx - 1) code;
    Ok (setslice cur (s - 1) (end_line fx) r).
Proof.
  intros Hs. destruct (suggestedCode fx) as [code|] eqn:Hc.
  - by rewrite (apply_fix_unfold orig cur fx s code Hs Hc).
  - unfold apply_fix. by rewrite Hs, Hc.
Qed.

Lemma replacement_lines_frame (p orig : list pystr) (e : Z) (code : pystr) :
  0 <= e ->
  replacement_lines (p ++ orig) (len p + e) code
  = replacement_lines orig e code.
Proof. intros He. unfold replacement_lines. by rewrite getitem_frame. Qed.

Lemma replacement_lines_prefix (p x y : list pystr) (e : Z) (code : pystr) :
  0 <= e < len p ->
  replacement_lines (p ++ x) e code = replacement_lines (p ++ y) e code.
Proof.
  intros He. unfold replacement_lines.
  by rewrite (getitem_prefix p x y e He).
Qed.

(** A fix whose lines are behind a prefix of both the original and the
    working copy acts on what follows the prefix. *)
Lemma apply_fix_frame (p orig cur : list pystr) (g : fix_t) :
  1 <= start_line g -> 1 <= end_line g ->
  apply_fix (p ++ orig) (p ++ cur) (shift_fix (len p) g)
  = out ← apply_fix orig cur g; Ok (p ++ out).
Proof.
  intros Hs He. destruct (lineNumber g) as [s|] eqn:Hg.
  2:{ unfold start_line, sort_key in Hs. rewrite Hg in Hs. simpl in Hs. lia. }
  assert (start_line g = s) as Hst
    by (unfold start_line, sort_key; by rewrite Hg).
  rewrite (apply_fix_unfold_key _ _ (shift_fix (len p) g) (s + len p))
    by (simpl; by rewrite Hg).
  rewrite (apply_fix_unfold_key orig cur g s Hg).
  rewrite end_line_shift by (by rewrite Hg). simpl.
  destruct (suggestedCode g) as [code|]; simpl; [|done].
  replace (end_line g + len p - 1) with (len p + (end_line g - 1)) by lia.
  rewrite replacement_lines_frame by lia.
  destruct (replacement_lines orig (end_line g - 1) code) as [r|];
    simpl; [|done].
  replace (s + len p - 1) with (len p + (s - 1)) by lia.
  replace (end_line g + len p) with (len p + end_line g) by lia.
  by rewrite setslice_frame by lia.
Qed.

Lemma apply_sorted_frame (p orig cur : list pystr) (l : list fix_t) :
  Forall (λ g, 1 <= start_line g /\ 1 <= end_line g) l ->
  apply_sorted (p ++ orig) (p ++ cur) (map (shift_fix (len p)) l)
  = out ← apply_sorted orig cur l; Ok (p ++ out).
Proof.
  intros H. revert cur.
  induction H as [|g l [Hs He] _ IH]; intros cur; simpl; [done|].
  rewrite apply_fix_frame by done.
  destruct (apply_fix orig cur g) as [mid|]; simpl; [apply IH | done].
Qed.

(** Fixes whose last lines are inside a prefix of the original do not
    see what follows the prefix in the original. *)
Lemma apply_sorted_prefix (p x y cur : list pystr) (l : list fix_t) :
  Forall (λ g, 1 <= end_line g <= len p) l ->
  apply_sorted (p ++ x) cur l = apply_sorted (p ++ y) cur l.
Proof.
  intros H. revert cur.
  induction H as [|g l He _ IH]; intros cur; simpl; [done|].
  assert (apply_fix (p ++ x) cur g = apply_fix (p ++ y) cur g) as ->.
  { destruct (lineNumber g) as [s|] eqn:Hg.
    - rewrite !(apply_fix_unfold_key _ _ g s Hg).
      destruct (suggestedCode g) as [code|]; simpl; [|done].
      by rewrite (replacement_lines_prefix p x y) by lia.
    - unfold apply_fix. by rewrite Hg. }
  destruct (apply_fix (p ++ y) cur g) as [mid|]; simpl; [apply IH | done].
Qed.

(** *** One edit against the others *)

(** A valid edit cuts the document in three: what is above its range, its
    range, and what is below. *)
Lemma valid_parts (doc : list pystr) (f : fix_t) :
  valid (len doc) f ->
  exists s code a b c r,
    lineNumber f = Some s /\ suggestedCode f = Some code /\
    start_line f = s /\ doc = a ++ b ++ c /\
    len a = s - 1 /\ len a + len b = end_line f /\
    replacement_lines doc (end_line f - 1) code = Ok r /\
    apply_fix doc doc f = Ok (a ++ r ++ c).
Proof.
  intros Hv. destruct (apply_fix_valid doc f Hv)
    as (code & orig_line & Hc & _ & Hr & Hm). simpl in Hr, Hm.
  destruct Hv as [[[s Hs] _] [Hse He]].
  assert (start_line f = s) as Hst
    by (unfold start_line, sort_key; by rewrite Hs).
  exists s, code, (take (Z.to_nat (s - 1)) doc),
    (take (Z.to_nat (end_line f - s + 1)) (drop (Z.to_nat (s - 1)) doc)),
    (drop (Z.to_nat (end_line f)) doc). eexists.
  repeat split; try done.
  - rewrite <- (take_drop (Z.to_nat (s - 1)) doc) at 1. f_equal.
    rewrite <- (take_drop (Z.to_nat (end_line f - s + 1))
                  (drop (Z.to_nat (s - 1)) doc)) at 1.
    f_equal. rewrite drop_drop. f_equal. lia.
  - unfold len in *. rewrite length_take. lia.
  - unfold len in *. rewrite !length_take, length_drop. lia.
  - by rewrite Hm, Hst.
Qed.

(** The pass over the edits after the range of an edit, the edit itself
    and the edits before its range, against the pass over the recomputed
    others on the document in which the edit has been applied. *)
Lemma pass_over_parts (a b c r : list pystr) (f : fix_t) (s : Z)
    (code : pystr) (hi lo : list fix_t) :
  lineNumber f = Some s -> suggestedCode f = Some code ->
  len a = s - 1 -> len a + len b = end_line f ->
  replacement_lines (a ++ b ++ c) (end_line f - 1) code = Ok r ->
  Forall (λ g, 1 <= start_line g /\ 1 <= end_line g) hi ->
  Forall (λ g, 1 <= end_line g <= len a) lo ->
  apply_sorted (a ++ b ++ c) (a ++ b ++ c)
    (map (shift_fix (len (a ++ b))) hi ++ f :: lo)
  = apply_sorted (a ++ r ++ c) (a ++ r ++ c)
      (map (shift_fix (len (a ++ r))) hi ++ lo).
Proof.
  intros Hs Hc Ha Hb Hr Hhi Hlo.
  rewrite !apply_sorted_app.
  rewrite (app_assoc a b c), (app_assoc a r c).
  rewrite !apply_sorted_frame by done.
  destruct (apply_sorted c c hi) as [c'|]; simpl; [|done].
  rewrite <- !app_assoc.
  rewrite (apply_fix_unfold _ _ f s code Hs Hc), Hr. simpl.
  replace (s - 1) with (len a) by lia. rewrite <- Hb.
  rewrite setslice_middle.
  by apply apply_sorted_prefix.
Qed.

Lemma recompute_line_number (f : fix_t) (delta : Z) (g : fix_t) :
  is_Some (lineNumber g) -> is_Some (lineNumber (recompute f delta g)).
Proof.
  intros [s Hs]. unfold recompute. case_bool_decide; [|by eexists].
  simpl. rewrite Hs. by eexists.
Qed.

Lemma beside_intro (n : Z) (f : fix_t) (fs : list fix_t) :
  Forall (valid n) fs -> Forall (disjoint f) fs -> Forall (beside n f) fs.
Proof.
  rewrite !Forall_forall. intros Hv Hd g Hg.
  destruct (Hv g Hg) as [[? _] [? ?]]. specialize (Hd g Hg). done.
Qed.

(** Applying one valid edit first and recomputing the others does not
    change what the descending pass computes. *)
Lemma descending_pass_step (doc : list pystr) (f : fix_t)
    (fs : list fix_t) (doc1 : list pystr) :
  valid (len doc) f -> Forall (valid (len doc)) fs ->
  Forall (disjoint f) fs -> apply_fix doc doc f = Ok doc1 ->
  modified_code_lines doc (f :: fs)
  = modified_code_lines doc1 (map (recompute f (len doc1 - len doc)) fs).
Proof.
  intros Hv Hfs Hdis Hd1.
  destruct (valid_parts doc f Hv)
    as (s & code & a & b & c & r & Hs & Hc & Hst & Hdoc & Ha & Hb & Hr & Hm).
  rewrite Hm in Hd1. injection Hd1 as <-.
  pose proof (beside_intro _ f fs Hfs Hdis) as Hfacts.
  destruct Hv as [Hwf [Hse He]].
  assert (len (a ++ r ++ c) - len doc = len r - len b) as ->
    by (rewrite Hdoc, !len_app; lia).
  pose proof (len_nonneg r) as Hr0.
  set (delta := len r - len b).
  unfold modified_code_lines.
  rewrite sorted_fixes_ok.
  2:{ constructor; [apply Hwf|].
      eapply Forall_impl; [exact Hfacts|]. by intros g [? _]. }
  rewrite sorted_fixes_ok.
  2:{ apply Forall_map. eapply Forall_impl; [exact Hfacts|].
      intros g [? _]. by apply recompute_line_number. }
  simpl.
  rewrite sorted_desc_map.
  2:{ intros x y Hx Hy. rewrite Forall_forall in Hfacts.
      destruct (Hfacts x Hx) as (Hx1 & Hx2 & Hx3 & Hx4).
      destruct (Hfacts y Hy) as (Hy1 & Hy2 & Hy3 & Hy4).
      destruct (recompute_range f delta x Hx1) as [Ex _].
      destruct (recompute_range f delta y Hy1) as [Ey _].
      unfold start_line in Ex, Ey. rewrite Ex, Ey.
      unfold disjoint in *. fold (start_line x) (start_line y).
      apply eq_iff_eq_true. rewrite !Z.ltb_lt.
      repeat case_bool_decide; lia. }
  set (L := sorted_desc sort_key fs).
  destruct (insert_desc_split sort_key f L (sorted_desc_sorted _ _))
    as (hi & lo & HL & -> & Hhi & Hlo).
  assert (Forall (beside (len doc) f) (hi ++ lo)) as HfactsL.
  { rewrite <- HL. unfold L. by rewrite sorted_desc_perm. }
  apply Forall_app in HfactsL as [Fhi Flo].
  rewrite HL, map_app.
  (* the edits after the range move, those before it stay *)
  assert (map (recompute f delta) hi = map (shift_fix delta) hi) as ->.
  { apply map_ext_Forall. rewrite Forall_forall in *. intros g Hg.
    specialize (Hhi g Hg). destruct (Fhi g Hg) as (_ & ? & _ & Hd).
    unfold recompute. rewrite bool_decide_true; [done|].
    unfold disjoint, start_line in *. lia. }
  assert (map (recompute f delta) lo = lo) as ->.
  { rewrite <- (map_id lo) at 2.
    apply map_ext_Forall. rewrite Forall_forall in *. intros g Hg.
    specialize (Hlo g Hg). destruct (Flo g Hg) as (_ & ? & _ & Hd).
    unfold recompute. rewrite bool_decide_false; [done|].
    unfold disjoint, start_line in *. lia. }
  (* the edits after the range, numbered from the end of the range *)
  set (hi0 := map (shift_fix (- len (a ++ b))) hi).
  assert (hi = map (shift_fix (len (a ++ b))) hi0) as Ehi.
  { unfold hi0. rewrite map_map. rewrite <- (map_id hi) at 1.
    apply map_ext. intros g. rewrite shift_fix_shift_fix.
    by rewrite Z.add_opp_diag_l, shift_fix_0. }
  assert (map (shift_fix delta) hi = map (shift_fix (len (a ++ r))) hi0)
    as ->.
  { unfold hi0. rewrite map_map. apply map_ext. intros g.
    rewrite shift_fix_shift_fix. f_equal. unfold delta.
    rewrite !len_app. lia. }
  rewrite Ehi, Hdoc. rewrite Hdoc in Hr.
  apply (pass_over_parts a b c r f s code hi0 lo); try done.
  - unfold hi0. apply Forall_map. rewrite Forall_forall in *.
    intros g Hg. specialize (Hhi g Hg).
    destruct (Fhi g Hg) as (Hsome & ? & _ & Hd).
    rewrite start_line_shift, end_line_shift by done.
    rewrite len_app. unfold disjoint, start_line in *. lia.
  - rewrite Forall_forall in *. intros g Hg. specialize (Hlo g Hg).
    destruct (Flo g Hg) as (_ & ? & _ & Hd).
    unfold disjoint, start_line in *. lia.
Qed.

(** Recomputed edits are valid and mutually non-overlapping on the new
    document. *)
Lemma recompute_valid (n delta : Z) (f : fix_t) (fs : list fix_t) :
  1 <= start_line f <= end_line f ->
  start_line f <= end_line f + 1 + delta -> end_line f <= n ->
  Forall (valid n) fs -> Forall (disjoint f) fs -> non_overlapping fs ->
  Forall (valid (n + delta)) (map (recompute f delta) fs)
  /\ non_overlapping (map (recompute f delta) fs).
Proof.
  intros Hse Hdelta He Hv Hd Hno.
  induction fs as [|g fs IH]; simpl; [by split; constructor|].
  apply Forall_cons in Hv as [Hg Hv]. apply Forall_cons in Hd as [Hfg Hd].
  destruct Hno as [Hgd Hno].
  destruct (IH Hv Hd Hno) as [IH1 IH2].
  destruct Hg as [Hwf [Hgse Hge]].
  destruct (recompute_range f delta g (proj1 Hwf)) as [Egs Ege].
  split.
  - constructor; [|done].
    split; [by apply recompute_well_formed|].
    rewrite Egs, Ege. unfold disjoint in Hfg.
    case_bool_decide; lia.
  - split; [|done]. apply Forall_map.
    rewrite Forall_forall in *. intros h Hh.
    destruct (Hv h Hh) as [Hhwf [Hhse Hhe]].
    specialize (Hd h Hh). specialize (Hgd h Hh).
    destruct (recompute_range f delta h (proj1 Hhwf)) as [Ehs Ehe].
    unfold disjoint in *. rewrite Egs, Ege, Ehs, Ehe.
    repeat case_bool_decide; lia.
Qed.

(** *** The reference implementation *)

Lemma terminated_endswith_nl (l : pystr) : terminated l = endswith_nl l.
Proof.
  unfold terminated, endswith_nl.
  destruct l as [|c l] using rev_ind; [done|].
  rewrite reverse_snoc, last_snoc.
  destruct (N.eqb_spec c NL) as [->|Hc].
  - by rewrite bool_decide_true.
  - rewrite bool_decide_false; [done|]. intros [= ?]. done.
Qed.

Lemma with_terminator_add_newline (ls : list pystr) :
  with_terminator ls = add_newline ls.
Proof.
  unfold with_terminator, add_newline.
  destruct ls as [|final front] using rev_ind; [done|].
  rewrite reverse_snoc, last_snoc, removelast_last.
  by rewrite reverse_involutive.
Qed.

(** The reference on the second scenario of the specification, and on
    edits given in ascending order, where the second one is moved by the
    line that the first one adds. *)
Lemma naive_reference_scenarios :
  naive_reference doc_abc
    [edit 1 1 (line "X"); edit 2 3 (line "Y" ++ line "Z")]
  = [line "X"; line "Y"; line "Z"]
  /\ naive_reference doc_abc
       [edit 1 1 (line "X" ++ line "W"); edit 3 3 (str "C")]
     = [line "X"; line "W"; line "b"; line "C"].
Proof. split; by simp naive_reference. Qed.

(** On a valid edit the replacement lines of the loop are those of the
    reference. *)
Lemma reference_replacement_valid (doc : list pystr) (f : fix_t)
    (code orig_line : pystr) :
  suggestedCode f = Some code ->
  doc !! Z.to_nat (end_line f - 1) = Some orig_line ->
  (if needs_newline (splitlines code) && endswith_nl orig_line
   then add_newline (splitlines code) else splitlines code)
  = reference_replacement doc f.
Proof.
  intros Hc Hl. unfold reference_replacement, replacement_text.
  rewrite Hc, Hl. simpl.
  rewrite needs_newline_splitlines, !terminated_endswith_nl,
    with_terminator_add_newline.
  destruct (endswith_nl code); simpl.
  - by rewrite andb_false_r.
  - rewrite andb_true_r. case_bool_decide as Hne; [done|].
    subst code. simpl. by destruct (endswith_nl orig_line).
Qed.

(** One valid edit: the body of the loop is the splice of the
    reference. *)
Lemma apply_fix_reference_splice (doc : list pystr) (f : fix_t) :
  valid (len doc) f -> apply_fix doc doc f = Ok (reference_splice doc f).
Proof.
  intros Hv. destruct (apply_fix_valid doc f Hv)
    as (code & orig_line & Hc & Hl & _ & Hm). simpl in Hm.
  rewrite Hm. unfold reference_splice.
  by rewrite (reference_replacement_valid doc f code orig_line Hc Hl).
Qed.

(** C3: on valid, mutually non-overlapping edits the descending pass of
    [apply_fixes] returns the lines of the reference implementation of the
    specification, which splices the edits in one at a time in the order of
    the list, each into the current document, and recomputes the line
    numbers of the remaining edits after each step. *)
Theorem descending_pass_refines_naive (doc : list pystr)
    (fixes : list fix_t) :
  Forall (valid (len doc)) fixes -> non_overlapping fixes ->
  modified_code_lines doc fixes = Ok (naive_reference doc fixes).
Proof.
  remember (length fixes) as n eqn:Hn. revert doc fixes Hn.
  induction n as [|n IH]; intros doc fixes Hn Hv Hno.
  - destruct fixes; [|done]. by simp naive_reference.
  - destruct fixes as [|f fs]; [done|]. simpl in Hn.
    apply Forall_cons in Hv as [Hf Hfs]. destruct Hno as [Hd Hno].
    pose proof (apply_fix_reference_splice doc f Hf) as Hdoc1.
    set (doc1 := reference_splice doc f) in *.
    rewrite (descending_pass_step doc f fs doc1 Hf Hfs Hd Hdoc1).
    simp naive_reference. fold doc1.
    destruct (valid_parts doc f Hf)
      as (s & code & a & b & c & r & _ & _ & Hst & Hdoc & Ha & Hb & _ & Hm).
    assert (doc1 = a ++ r ++ c) as Hd1 by congruence.
    destruct Hf as [_ [Hse He]].
    destruct (recompute_valid (len doc) (len doc1 - len doc) f fs)
      as [Hv' Hno']; try done.
    { rewrite Hd1, Hdoc, !len_app. pose proof (len_nonneg r). lia. }
    replace (len doc + (len doc1 - len doc)) with (len doc1) in Hv' by lia.
    apply IH; [|done..]. rewrite length_map. lia.
Qed.

Lemma descending_pass_refines_naive_witness :
  let fixes := [edit 1 1 (line "X" ++ line "W");
                edit 3 3 [];
                edit 2 2 (str "Y")] in
  modified_code_lines doc_abc fixes = Ok (naive_reference doc_abc fixes).
Proof.
  intros fixes.
  apply (descending_pass_refines_naive doc_abc fixes).
  - repeat constructor; try (by eexists); vm_compute; discriminate.
  - repeat constructor; vm_compute; reflexivity.
Defined.

(** * Further properties of the patch computation *)

(** ** Induction on the pass over valid edits *)

(** A relation between a document, valid and mutually non-overlapping
    edits and the patched document holds when it holds for no edit and is
    carried from the recomputed edits on the document with one edit
    applied to the whole list. *)
Lemma valid_pass_ind
    (P : list pystr -> list fix_t -> list pystr -> Prop) :
  (forall doc, P doc [] doc) ->
  (forall doc f fs doc1 out,
     valid (len doc) f -> Forall (valid (len doc)) fs ->
     Forall (disjoint f) fs ->
     apply_fix doc doc f = Ok doc1 ->
     P doc1 (map (recompute f (len doc1 - len doc)) fs) out ->
     P doc (f :: fs) out) ->
  forall doc fixes,
    Forall (valid (len doc)) fixes -> non_overlapping fixes ->
    exists out, modified_code_lines doc fixes = Ok out /\ P doc fixes out.
Proof.
  intros Hnil Hcons doc fixes.
  remember (length fixes) as n eqn:Hn. revert doc fixes Hn.
  induction n as [|n IH]; intros doc fixes Hn Hv Hno.
  - destruct fixes; [|done]. exists doc. split; [done | apply Hnil].
  - destruct fixes as [|f fs]; [done|]. simpl in Hn.
    apply Forall_cons in Hv as [Hf Hfs]. destruct Hno as [Hd Hno].
    destruct (apply_fix_ok doc doc f Hf) as [doc1 Hdoc1].
    rewrite (descending_pass_step doc f fs doc1 Hf Hfs Hd Hdoc1).
    destruct (valid_parts doc f Hf)
      as (s & code & a & b & c & r & _ & _ & Hst & Hdoc & Ha & Hb & _ & Hm).
    assert (doc1 = a ++ r ++ c) as Hd1 by congruence.
    pose proof Hf as [_ [Hse He]].
    destruct (recompute_valid (len doc) (len doc1 - len doc) f fs)
      as [Hv' Hno']; try done.
    { rewrite Hd1, Hdoc, !len_app. pose proof (len_nonneg r). lia. }
    replace (len doc + (len doc1 - len doc)) with (len doc1) in Hv' by lia.
    destruct (IH doc1 (map (recompute f (len doc1 - len doc)) fs))
      as (out & Hout & HP); [rewrite length_map; lia | done..|].
    exists out. split; [done|]. by apply (Hcons doc f fs doc1 out).
Qed.

(** ** The line count of the patched document *)

Lemma add_newline_length (l : list pystr) :
  length (add_newline l) = length l.
Proof.
  unfold add_newline. destruct (last l) as [final|] eqn:E; [|done].
  apply last_Some in E as [l' ->].
  rewrite removelast_last, !length_app. done.
Qed.

(** The replacement lines are as many as the lines of the text. *)
Lemma replacement_lines_length (orig : list pystr) (e : Z)
    (code : pystr) (r : list pystr) :
  replacement_lines orig e code = Ok r -> len r = len (splitlines code).
Proof.
  unfold replacement_lines, len. destruct (needs_newline _).
  - destruct (getitem orig e) as [orig_line|]; simpl; [|done].
    intros [= <-]. destruct (endswith_nl orig_line); [|done].
    by rewrite add_newline_length.
  - by intros [= <-].
Qed.

Lemma suggestedCode_recompute (f : fix_t) (delta : Z) (g : fix_t) :
  suggestedCode (recompute f delta g) = suggestedCode g.
Proof. unfold recompute. by case_bool_decide. Qed.

Lemma growth_recompute (f : fix_t) (delta : Z) (g : fix_t) :
  is_Some (lineNumber g) -> growth (recompute f delta g) = growth g.
Proof.
  intros Hg. unfold growth.
  destruct (recompute_range f delta g Hg) as [-> ->].
  rewrite suggestedCode_recompute. lia.
Qed.

Lemma total_growth_recompute (f : fix_t) (delta : Z) (fs : list fix_t) :
  Forall (λ g, is_Some (lineNumber g)) fs ->
  total_growth (map (recompute f delta) fs) = total_growth fs.
Proof.
  induction 1 as [|g fs Hg _ IH]; simpl; [done|].
  by rewrite growth_recompute, IH.
Qed.

(** One valid edit changes the line count by its growth. *)
Lemma apply_fix_line_count (doc doc1 : list pystr) (f : fix_t) :
  valid (len doc) f -> apply_fix doc doc f = Ok doc1 ->
  len doc1 = len doc + growth f.
Proof.
  intros Hf Hdoc1.
  destruct (valid_parts doc f Hf)
    as (s & code & a & b & c & r & _ & Hc & Hst & Hdoc & Ha & Hb & Hr & Hm).
  assert (doc1 = a ++ r ++ c) as -> by congruence.
  apply replacement_lines_length in Hr.
  unfold growth. rewrite Hc. simpl. rewrite Hdoc.
  rewrite !len_app. lia.
Qed.

(** X1: on valid, mutually non-overlapping edits the patched document has
    the lines of the document, plus for every edit the lines of its
    replacement text, minus the lines of its range. *)
Theorem patch_line_count (doc : list pystr) (fixes : list fix_t) :
  Forall (valid (len doc)) fixes -> non_overlapping fixes ->
  exists out,
    modified_code_lines doc fixes = Ok out /\
    len out = len doc + total_growth fixes.
Proof.
  apply (valid_pass_ind
           (λ doc fixes out, len out = len doc + total_growth fixes)).
  - intros d. simpl. lia.
  - intros d f fs doc1 out Hf Hfs _ Hdoc1 HP. simpl.
    rewrite HP, (apply_fix_line_count d doc1 f Hf Hdoc1).
    rewrite total_growth_recompute; [lia|].
    eapply Forall_impl; [exact Hfs|]. by intros g [[? _] _].
Qed.

Lemma patch_line_count_witness :
  exists out,
    modified_code_lines doc_abc
      [edit 1 1 (line "X" ++ line "W"); edit 3 3 []; edit 2 2 (str "Y")]
    = Ok out /\ len out = 3.
Proof.
  apply (patch_line_count doc_abc
           [edit 1 1 (line "X" ++ line "W"); edit 3 3 [];
            edit 2 2 (str "Y")]).
  - repeat constructor; try (by eexists); vm_compute; discriminate.
  - repeat constructor; vm_compute; reflexivity.
Defined.

(** ** The lines outside the edited span *)

(** A document cut at two line numbers. *)
Lemma take_mid_drop {A} (l : list A) (i j : nat) :
  (i <= j)%nat ->
  l = take i l ++ take (j - i) (drop i l) ++ drop j l.
Proof.
  intros Hij. rewrite <- (take_drop i l) at 1. f_equal.
  rewrite <- (take_drop (j - i) (drop i l)) at 1. f_equal.
  rewrite drop_drop. f_equal. lia.
Qed.

(** X2: when every range of valid, mutually non-overlapping edits lies
    between the line numbers [lo] and [hi], the patched document starts
    with the lines of the document before [lo] and ends with its lines
    after [hi]. *)
Theorem patch_touches_only_the_span (doc : list pystr)
    (fixes : list fix_t) (lo hi : Z) :
  Forall (valid (len doc)) fixes -> non_overlapping fixes ->
  1 <= lo <= hi + 1 -> hi <= len doc ->
  Forall (λ g, lo <= start_line g /\ end_line g <= hi) fixes ->
  exists out mid,
    modified_code_lines doc fixes = Ok out /\
    out = take (Z.to_nat (lo - 1)) doc ++ mid ++ drop (Z.to_nat hi) doc.
Proof.
  intros Hv Hno Hlo Hhi Hb.
  destruct (valid_pass_ind
    (λ doc fixes out, forall lo hi,
       1 <= lo <= hi + 1 -> hi <= len doc ->
       Forall (λ g, lo <= start_line g /\ end_line g <= hi) fixes ->
       exists mid,
         out = take (Z.to_nat (lo - 1)) doc ++ mid
               ++ drop (Z.to_nat hi) doc)) with doc fixes
    as (out & Hout & HP); try done.
  - clear. intros doc lo hi Hlo Hhi _.
    eexists. apply take_mid_drop. lia.
  - clear. intros doc f fs doc1 out Hf Hfs Hd Hdoc1 HP lo hi Hlo Hhi Hb.
    apply Forall_cons in Hb as [[Hflo Hfhi] Hb].
    destruct (valid_parts doc f Hf)
      as (s & code & a & b & c & r & _ & _ & Hst & Hdoc & Ha & Hlb & _ & Hm).
    assert (doc1 = a ++ r ++ c) as Hd1 by congruence.
    pose proof (len_nonneg r) as Hr0. pose proof (len_nonneg b) as Hb0.
    pose proof (len_nonneg c) as Hc0.
    assert (len doc1 - len doc = len r - len b) as Hdelta
      by (rewrite Hd1, Hdoc, !len_app; lia).
    rewrite Hdelta in HP.
    destruct (HP lo (hi + (len r - len b))) as [mid Hmid].
    + lia.
    + rewrite Hd1, !len_app. rewrite Hdoc, !len_app in Hhi. lia.
    + apply Forall_map.
      pose proof (beside_intro _ f fs Hfs Hd) as Hfacts.
      rewrite Forall_forall in *. intros g Hg.
      destruct (Hfacts g Hg) as (Hsome & Hg1 & Hg2 & Hg3).
      destruct (Hb g Hg) as [Hglo Hghi].
      destruct (recompute_range f (len r - len b) g Hsome) as [-> ->].
      unfold disjoint in Hg3. case_bool_decide; lia.
    + exists mid. rewrite Hmid, Hd1, Hdoc.
      rewrite !take_app_le by (unfold len in *; lia).
      do 2 f_equal.
      rewrite !app_assoc.
      rewrite !drop_app_ge by (rewrite length_app; unfold len in *; lia).
      f_equal. rewrite !length_app. unfold len in *. lia.
  - destruct (HP lo hi Hlo Hhi Hb) as [mid Hmid]. by exists out, mid.
Qed.

Lemma patch_touches_only_the_span_witness :
  let doc := [line "a"; line "b"; line "c"; line "d"; line "e"] in
  exists out mid,
    modified_code_lines doc [edit 2 2 []; edit 3 4 (line "X")]
    = Ok out /\
    out = [line "a"] ++ mid ++ [line "e"].
Proof.
  intros doc.
  apply (patch_touches_only_the_span doc
           [edit 2 2 []; edit 3 4 (line "X")] 2 4).
  - repeat constructor; try (by eexists); vm_compute; discriminate.
  - repeat constructor; vm_compute; reflexivity.
  - lia.
  - vm_compute. discriminate.
  - repeat constructor; vm_compute; discriminate.
Defined.

(** ** The order of valid edits in the input list *)

Section DistinctKeys.
Context {A : Type} (key : A -> Z).

(** With distinct keys at most one element has a given key. *)
Lemma filter_key_short (k : Z) (l : list A) :
  NoDup (map key l) -> (length (filter (λ y, key y = k) l) <= 1)%nat.
Proof.
  induction l as [|x l IH]; simpl; [intros _; lia|].
  intros Hnd. apply NoDup_cons in Hnd as [Hx Hnd].
  rewrite filter_cons. case_decide as Hk; [|by apply IH].
  destruct (filter (λ y, key y = k) l) as [|y ys] eqn:E; [simpl; lia|].
  exfalso. apply Hx.
  assert (y ∈ filter (λ y, key y = k) l) as Hy by (rewrite E; left).
  apply list_elem_of_filter in Hy as [Hky Hy].
  rewrite Hk, <- Hky. apply list_elem_of_fmap. by exists y.
Qed.

(** With distinct keys the sorted list does not depend on the order of
    the input. *)
Lemma sorted_desc_permutation (l l' : list A) :
  l ≡ₚ l' -> NoDup (map key l) ->
  sorted_desc key l = sorted_desc key l'.
Proof.
  intros Hp Hnd.
  apply (stable_sort_unique key); try apply sorted_desc_sorted.
  intros k. rewrite !sorted_desc_stable.
  pose proof (filter_key_short k l Hnd) as Hlen.
  assert (filter (λ y, key y = k) l ≡ₚ filter (λ y, key y = k) l') as Hf
    by (by rewrite Hp).
  destruct (filter (λ y, key y = k) l) as [|x [|z zs]]; simpl in Hlen.
  - by apply Permutation_nil_l in Hf.
  - by apply Permutation_singleton_l in Hf.
  - lia.
Qed.
End DistinctKeys.

(** Mutually non-overlapping valid edits start at distinct lines. *)
Lemma non_overlapping_distinct_keys (n : Z) (fixes : list fix_t) :
  Forall (valid n) fixes -> non_overlapping fixes ->
  NoDup (map sort_key fixes).
Proof.
  induction 1 as [|f fs Hf Hfs IH]; simpl; [constructor|].
  intros [Hd Hno]. constructor; [|by apply IH].
  intros Hin. apply list_elem_of_fmap in Hin as (g & Hk & Hg).
  rewrite Forall_forall in Hd, Hfs.
  specialize (Hd g Hg). destruct (Hfs g Hg) as [_ [Hg1 _]].
  destruct Hf as [_ [Hf1 _]].
  unfold disjoint, start_line in *. lia.
Qed.

(** X3: the order in which valid, mutually non-overlapping edits are
    listed does not matter: every reordering of the list gives the same
    patched document. *)
Theorem valid_edits_order_irrelevant (doc : list pystr)
    (fixes fixes' : list fix_t) :
  Forall (valid (len doc)) fixes -> non_overlapping fixes ->
  fixes ≡ₚ fixes' ->
  exists out,
    modified_code_lines doc fixes = Ok out /\
    modified_code_lines doc fixes' = Ok out.
Proof.
  intros Hv Hno Hp.
  destruct (modified_code_lines_ok doc fixes Hv) as [out Hout].
  exists out. split; [done|]. rewrite <- Hout.
  assert (Forall (λ fx, is_Some (lineNumber fx)) fixes) as Hs
    by (eapply Forall_impl; [exact Hv|]; by intros fx [[? _] _]).
  unfold modified_code_lines.
  rewrite (sorted_fixes_ok fixes Hs).
  rewrite (sorted_fixes_ok fixes') by (by rewrite <- Hp).
  rewrite (sorted_desc_permutation sort_key fixes fixes' Hp); [done|].
  by apply (non_overlapping_distinct_keys (len doc)).
Qed.

Lemma valid_edits_order_irrelevant_witness :
  exists out,
    modified_code_lines doc_abc
      [edit 1 1 (str "X"); edit 2 2 []; edit 3 3 (line "Z")]
    = Ok out /\
    modified_code_lines doc_abc
      [edit 3 3 (line "Z"); edit 1 1 (str "X"); edit 2 2 []]
    = Ok out.
Proof.
  apply valid_edits_order_irrelevant.
  - repeat constructor; try (by eexists); vm_compute; discriminate.
  - repeat constructor; vm_compute; reflexivity.
  - symmetry. apply (Permutation_cons_append [_; _]).
Defined.

(** ** The text of the patched lines *)

Lemma concat_add_newline (l : list pystr) :
  needs_newline l = true -> concat (add_newline l) = concat l ++ [NL].
Proof.
  unfold needs_newline, add_newline.
  destruct (last l) as [final|] eqn:E; [|done]. intros _.
  apply last_Some in E as [l' ->].
  rewrite removelast_last, !concat_app. simpl.
  by rewrite !app_nil_r, app_assoc.
Qed.

(** The replacement lines put together are the replacement text, with a
    newline after it when line 85 adds one. *)
Lemma concat_replacement_lines (doc : list pystr) (e : Z) (code : pystr)
    (orig_line : pystr) :
  0 <= e -> doc !! Z.to_nat e = Some orig_line ->
  exists r,
    replacement_lines doc e code = Ok r /\
    concat r = code ++
      if needs_newline (splitlines code) && endswith_nl orig_line
      then [NL] else [].
Proof.
  intros He Hl. unfold replacement_lines.
  destruct (needs_newline (splitlines code)) eqn:Hn; simpl.
  - rewrite (getitem_in_range doc e orig_line He Hl). simpl.
    eexists. split; [done|].
    destruct (endswith_nl orig_line).
    + by rewrite concat_add_newline, splitlines_concat.
    + by rewrite splitlines_concat, app_nil_r.
  - eexists. split; [done|]. by rewrite splitlines_concat, app_nil_r.
Qed.

(** What one accepted valid edit leaves on the disk. *)
Lemma single_edit_disk (file_path : string)
    (fs : gmap string pystr) (text code : pystr) (fx : fix_t) :
  fs !! file_path = Some text ->
  valid (len (readlines text)) fx ->
  suggestedCode fx = Some code ->
  let lines := readlines text in
  exists orig_line,
    lines !! Z.to_nat (end_line fx - 1) = Some orig_line /\
    ended (apply_fixes file_path [fx] Yes fs) = Applied /\
    disk (apply_fixes file_path [fx] Yes fs) =
      <[file_path :=
          concat (take (Z.to_nat (start_line fx - 1)) lines)
          ++ code
          ++ (if needs_newline (splitlines code) && endswith_nl orig_line
              then [NL] else [])
          ++ concat (drop (Z.to_nat (end_line fx)) lines)]> fs.
Proof.
  intros Hf Hv Hc lines.
  destruct (apply_fix_valid (readlines text) fx Hv)
    as (code' & orig_line & Hc' & Horig & Hr & Hm).
  rewrite Hc in Hc'. injection Hc' as <-.
  exists orig_line. split; [done|].
  destruct Hv as [_ [Hse He]].
  destruct (concat_replacement_lines (readlines text) (end_line fx - 1)
              code orig_line) as (r & Hr' & Hcat); [lia | done |].
  simpl in Hr. rewrite Hr in Hr'. injection Hr' as Er.
  unfold apply_fixes. rewrite Hf, modified_single, Hm. simpl.
  split; [done|]. f_equal. unfold writelines.
  rewrite !concat_app. rewrite Er, Hcat. by rewrite <- !app_assoc.
Qed.

(** X4: the text of the document patched by one valid edit is the
    text of the lines before the range, the replacement text as it is, a
    newline when that text is not empty, has no final newline and the
    original line at [endLineNumber] has one, and the text of the lines
    after the range. *)
Theorem one_edit_patched_text (doc : list pystr) (code : pystr)
    (fx : fix_t) :
  valid (len doc) fx ->
  suggestedCode fx = Some code ->
  exists out orig_line,
    doc !! Z.to_nat (end_line fx - 1) = Some orig_line /\
    modified_code_lines doc [fx] = Ok out /\
    concat out =
      concat (take (Z.to_nat (start_line fx - 1)) doc)
      ++ code
      ++ (if needs_newline (splitlines code) && endswith_nl orig_line
          then [NL] else [])
      ++ concat (drop (Z.to_nat (end_line fx)) doc).
Proof.
  intros Hv Hc.
  destruct (apply_fix_valid doc fx Hv)
    as (code' & orig_line & Hc' & Horig & Hr & Hm).
  rewrite Hc in Hc'. injection Hc' as <-.
  destruct Hv as [_ [Hse He]].
  destruct (concat_replacement_lines doc (end_line fx - 1) code orig_line)
    as (r & Hr' & Hcat); [lia | done |].
  simpl in Hr, Hm. rewrite Hr in Hr'. injection Hr' as Er.
  eexists _, orig_line. split; [done|].
  split; [by rewrite modified_single, Hm|].
  rewrite !concat_app. rewrite Er, Hcat. by rewrite <- !app_assoc.
Qed.

Lemma one_edit_patched_text_witness :
  let doc := readlines (line "a" ++ line "b" ++ str "c") in
  exists out,
    modified_code_lines doc [edit 2 2 (str "B")] = Ok out /\
    concat out = line "a" ++ line "B" ++ str "c".
Proof.
  intros doc.
  destruct (one_edit_patched_text doc (str "B") (edit 2 2 (str "B")))
    as (out & orig_line & Ho & Hout & Hcat).
  - split; [split; by eexists|]. vm_compute. repeat split; discriminate.
  - reflexivity.
  - exists out. split; [done|]. rewrite Hcat.
    vm_compute in Ho. injection Ho as <-. reflexivity.
Defined.

(** ** The lines of a text file *)

Lemma full_line_newline : full_line [NL].
Proof. exists []. split; [constructor | done]. Qed.

Lemma full_line_cons (c : N) (l : pystr) :
  c <> 10%N -> c <> 13%N -> full_line l -> full_line (c :: l).
Proof.
  intros H10 H13 (body & Hb & ->). exists (c :: body).
  split; [by constructor | done].
Qed.

Lemma open_line_cons (c : N) (l : pystr) :
  c <> 10%N -> c <> 13%N -> plain l -> open_line (c :: l).
Proof. intros H10 H13 Hl. split; [by constructor | done]. Qed.

Lemma full_line_endswith_nl (l : pystr) : full_line l -> endswith_nl l = true.
Proof. intros (body & _ & ->). apply endswith_nl_snoc. Qed.

Lemma open_line_endswith_nl (l : pystr) : open_line l -> endswith_nl l = false.
Proof.
  intros [Hp Hne]. unfold endswith_nl. apply bool_decide_eq_false.
  intros Hl. apply last_Some in Hl as [l' ->].
  apply Forall_app in Hp as [_ Hp]. inversion Hp as [|? ? [H10 _]]; subst.
  by apply H10.
Qed.

Lemma file_lines_nil : file_lines [].
Proof. split; constructor. Qed.

(** Lines that are all full are the lines of a file. *)
Lemma full_lines_file_lines (ls : list pystr) :
  Forall full_line ls -> file_lines ls.
Proof.
  intros H. split.
  - eapply Forall_impl; [exact H|]. by left.
  - destruct ls as [|l ls _] using rev_ind; [constructor|].
    rewrite removelast_last. by apply Forall_app in H as [? _].
Qed.

(** The lines of a file followed by more lines. *)
Lemma file_lines_app (x y : list pystr) :
  y <> [] -> file_lines (x ++ y) <-> Forall full_line x /\ file_lines y.
Proof.
  intros Hy. unfold file_lines.
  rewrite removelast_app, !Forall_app by done. split.
  - intros [[Hx Hy1] [Hfx Hy2]]. done.
  - intros [Hfx [Hy1 Hy2]]. repeat split; try done.
    eapply Forall_impl; [exact Hfx|]. by left.
Qed.

Lemma file_lines_cons (l : pystr) (ls : list pystr) :
  full_line l -> file_lines ls -> file_lines (l :: ls).
Proof.
  intros Hl Hls. destruct ls as [|l' ls].
  - apply full_lines_file_lines. by constructor.
  - apply (file_lines_app [l] (l' :: ls)); [done|].
    split; [by constructor | done].
Qed.

(** A character other than LF and CR put before the first line. *)
Lemma file_lines_prepend (c : N) (l : pystr) (ls : list pystr) :
  c <> 10%N -> c <> 13%N -> file_lines (l :: ls) -> file_lines ((c :: l) :: ls).
Proof.
  intros H10 H13 Hls. destruct ls as [|l' ls].
  - destruct Hls as [Hl _]. inversion Hl as [|? ? [Hf|[Ho _]] _]; subst.
    + apply full_lines_file_lines. constructor; [|constructor].
      by apply full_line_cons.
    + split; [|constructor]. constructor; [|constructor].
      right. by apply open_line_cons.
  - apply (file_lines_app [l] (l' :: ls)) in Hls as [Hl Hls]; [|done].
    apply (file_lines_app [c :: l] (l' :: ls)); [done|].
    split; [|done]. inversion Hl; subst. constructor; [|constructor].
    by apply full_line_cons.
Qed.

(** What [readlines] returns are the lines of a file. *)
Lemma readlines_file_lines (text : pystr) : file_lines (readlines text).
Proof.
  induction text as [|c|c d s IH1 IH2] using pystr_ind2.
  - apply file_lines_nil.
  - simpl. repeat case_match;
      try (apply full_lines_file_lines; constructor;
           [apply full_line_newline | constructor]).
    split; [|constructor]. constructor; [|constructor]. right.
    apply open_line_cons; [by apply N.eqb_neq.. | constructor].
  - change (readlines (c :: d :: s)) with
      (if (c =? 10)%N then [NL] :: readlines (d :: s)
       else if (c =? 13)%N then
         if (d =? 10)%N then [NL] :: readlines s
         else [NL] :: readlines (d :: s)
       else match readlines (d :: s) with
            | [] => [[c]]
            | l :: ls => (c :: l) :: ls
            end).
    destruct (c =? 10)%N eqn:E10;
      [by apply file_lines_cons; [apply full_line_newline|]|].
    destruct (c =? 13)%N eqn:E13.
    { case_match; by apply file_lines_cons; [apply full_line_newline|]. }
    apply N.eqb_neq in E10, E13.
    destruct (readlines (d :: s)) as [|l ls].
    + split; [|constructor]. constructor; [|constructor]. right.
      apply open_line_cons; [done.. | constructor].
    + by apply file_lines_prepend.
Qed.

(** A text without CR is the concatenation of its lines. *)
Lemma concat_readlines (text : pystr) :
  Forall (λ c, c <> 13%N) text -> concat (readlines text) = text.
Proof.
  induction 1 as [|c s Hc _ IH]; [done|].
  assert (readlines (c :: s) =
          if (c =? 10)%N then [NL] :: readlines s
          else match readlines s with
               | [] => [[c]]
               | l :: ls => (c :: l) :: ls
               end) as ->.
  { simpl. destruct (c =? 10)%N; [done|].
    apply N.eqb_neq in Hc. by rewrite Hc. }
  destruct (c =? 10)%N eqn:E10.
  - apply N.eqb_eq in E10 as ->. simpl. by rewrite IH.
  - destruct (readlines s) as [|l ls]; simpl in *; by rewrite <- IH.
Qed.

Lemma readlines_plain_newline (body rest : pystr) :
  plain body ->
  readlines (body ++ NL :: rest) = (body ++ [NL]) :: readlines rest.
Proof.
  induction 1 as [|c body [H10 H13] _ IH]; [done|].
  apply N.eqb_neq in H10, H13.
  change ((c :: body) ++ NL :: rest) with (c :: (body ++ NL :: rest)).
  assert (forall t, readlines (c :: t) =
            match readlines t with
            | [] => [[c]]
            | l :: ls => (c :: l) :: ls
            end) as -> by (intros t; simpl; by rewrite H10, H13).
  by rewrite IH.
Qed.

Lemma readlines_open_line (l : pystr) : open_line l -> readlines l = [l].
Proof.
  intros [Hp Hne]. induction Hp as [|c body [H10 H13] _ IH]; [done|].
  apply N.eqb_neq in H10, H13.
  assert (readlines (c :: body) =
            match readlines body with
            | [] => [[c]]
            | l :: ls => (c :: l) :: ls
            end) as -> by (simpl; by rewrite H10, H13).
  destruct body as [|d body]; [done|]. by rewrite IH.
Qed.

(** The lines of a file are read back from their concatenation. *)
Lemma readlines_concat (ls : list pystr) :
  file_lines ls -> readlines (concat ls) = ls.
Proof.
  induction ls as [|l ls IH]; [done|]. intros Hls.
  destruct ls as [|l' ls].
  - simpl. rewrite app_nil_r. destruct Hls as [Hl _].
    inversion Hl as [|? ? [(body & Hb & ->)|Ho] _]; subst.
    + by rewrite (readlines_plain_newline body []).
    + by apply readlines_open_line.
  - apply (file_lines_app [l] (l' :: ls)) in Hls as [Hl Hls]; [|done].
    inversion Hl as [|? ? (body & Hb & ->) _]; subst.
    change (concat ((body ++ [NL]) :: l' :: ls))
      with ((body ++ [NL]) ++ concat (l' :: ls)).
    rewrite <- app_assoc.
    change ([NL] ++ concat (l' :: ls)) with (NL :: concat (l' :: ls)).
    by rewrite readlines_plain_newline, IH.
Qed.

(** ** An edit that rewrites lines with their own text *)

Lemma file_lines_nonempty (ls : list pystr) :
  file_lines ls -> Forall (λ l, l <> []) ls.
Proof.
  intros [H _]. eapply Forall_impl; [exact H|].
  intros l [(body & _ & ->)|[_ ?]]; [|done]. by destruct body.
Qed.

(** X5: when the user accepts a valid edit whose replacement text is the
    text of the lines of its range, the file is replaced by the
    concatenation of the lines that were read; for a file without CR that
    is the text it had, so that nothing on the disk changes. *)
Theorem rewriting_lines_with_their_text (file_path : string)
    (fs : gmap string pystr) (text : pystr) (fx : fix_t) :
  fs !! file_path = Some text ->
  valid (len (readlines text)) fx ->
  let lines := readlines text in
  suggestedCode fx =
    Some (concat (take (Z.to_nat (end_line fx - start_line fx + 1))
                       (drop (Z.to_nat (start_line fx - 1)) lines))) ->
  disk (apply_fixes file_path [fx] Yes fs)
  = <[file_path := concat lines]> fs
  /\ (Forall (λ c, c <> 13%N) text ->
      disk (apply_fixes file_path [fx] Yes fs) = fs).
Proof.
  intros Hf Hv lines Hc.
  set (b := take (Z.to_nat (end_line fx - start_line fx + 1))
                 (drop (Z.to_nat (start_line fx - 1)) lines)) in *.
  destruct (single_edit_disk file_path fs text (concat b) fx Hf Hv Hc)
    as (orig_line & Ho & _ & Hd).
  fold lines in Ho, Hd. destruct Hv as [_ [Hse He]]. fold lines in He.
  assert (last b = Some orig_line) as Hlast.
  { rewrite last_lookup. unfold b.
    rewrite length_take, length_drop.
    unfold len in He.
    rewrite lookup_take_lt by lia. rewrite lookup_drop.
    rewrite <- Ho. f_equal. lia. }
  assert (Forall (λ l, l <> []) b) as Hne.
  { unfold b. apply Forall_take, Forall_drop, file_lines_nonempty.
    apply readlines_file_lines. }
  assert (needs_newline (splitlines (concat b)) && endswith_nl orig_line
          = false) as Hnl.
  { rewrite needs_newline_splitlines.
    assert (endswith_nl (concat b) = endswith_nl orig_line) as ->
      by (unfold endswith_nl; by rewrite (last_concat b orig_line)).
    destruct (endswith_nl orig_line); [|by rewrite andb_false_r].
    by rewrite andb_false_r. }
  assert (disk (apply_fixes file_path [fx] Yes fs)
          = <[file_path := concat lines]> fs) as Hdisk.
  { rewrite Hd, Hnl. f_equal. simpl.
    rewrite (take_mid_drop lines (Z.to_nat (start_line fx - 1))
               (Z.to_nat (end_line fx))) at 3 by lia.
    rewrite !concat_app. do 2 f_equal. unfold b. do 2 f_equal. lia. }
  split; [done|]. intros Hcr. rewrite Hdisk.
  unfold lines. rewrite concat_readlines by done. by apply insert_id.
Qed.

Lemma rewriting_lines_with_their_text_witness :
  let fs : gmap string pystr :=
    {[ "c.ts"%string := line "a" ++ line "b" ++ str "c" ]} in
  disk (apply_fixes "c.ts" [edit 2 3 (line "b" ++ str "c")] Yes fs) = fs.
Proof.
  intros fs.
  destruct (rewriting_lines_with_their_text "c.ts" fs
              (line "a" ++ line "b" ++ str "c")
              (edit 2 3 (line "b" ++ str "c"))) as [_ H].
  - reflexivity.
  - split; [split; by eexists|]. vm_compute. repeat split; discriminate.
  - reflexivity.
  - apply H. repeat constructor; discriminate.
Defined.

(** ** The patched lines as the lines of a file *)

(** Where LF is the only boundary, [splitlines] cuts as [readlines]. *)
Lemma splitlines_lf_only (code : pystr) :
  lf_only code -> splitlines code = readlines code.
Proof.
  induction 1 as [|c s Hc _ IH]; [done|].
  assert (splitlines (c :: s) =
          if is_linebreak c then
            match s with
            | d :: s'' =>
                if ((c =? 13) && (d =? 10))%N then [c; d] :: splitlines s''
                else [c] :: splitlines s
            | [] => [[c]]
            end
          else match splitlines s with
               | [] => [[c]]
               | l :: ls => (c :: l) :: ls
               end) as -> by (by destruct s).
  destruct (is_linebreak c) eqn:Hb.
  - rewrite (Hc eq_refl). rewrite IH. by destruct s.
  - assert ((c =? 10)%N = false) as H10
      by (apply N.eqb_neq; intros ->; done).
    assert ((c =? 13)%N = false) as H13
      by (apply N.eqb_neq; intros ->; done).
    simpl. by rewrite H10, H13, IH.
Qed.

Lemma add_newline_full_lines (r : list pystr) :
  file_lines r -> needs_newline r = true -> Forall full_line (add_newline r).
Proof.
  intros [Hl Hf]. unfold needs_newline, add_newline.
  destruct (last r) as [final|] eqn:E; [|done]. intros Hn.
  apply last_Some in E as [r' ->]. rewrite removelast_last in *.
  apply Forall_app. split; [done|]. constructor; [|constructor].
  apply Forall_app in Hl as [_ Hl].
  inversion Hl as [|? ? [Hfull|[Hp _]] _]; subst.
  - by rewrite (full_line_endswith_nl final Hfull) in Hn.
  - by exists final.
Qed.

Lemma terminated_full_lines (r : list pystr) :
  file_lines r -> needs_newline r = false -> Forall full_line r.
Proof.
  intros [Hl Hf]. unfold needs_newline.
  destruct (last r) as [final|] eqn:E.
  - intros Hn. apply last_Some in E as [r' ->].
    rewrite removelast_last in Hf.
    apply Forall_app. split; [done|]. constructor; [|constructor].
    apply Forall_app in Hl as [_ Hl].
    inversion Hl as [|? ? [Hfull|Hopen] _]; subst; [done|].
    by rewrite (open_line_endswith_nl final Hopen) in Hn.
  - intros _. apply last_None in E as ->. constructor.
Qed.

(** One valid edit whose replacement text has LF as only line boundary
    turns the lines of a file into the lines of a file. *)
Lemma apply_fix_file_lines (doc doc1 : list pystr) (f : fix_t) :
  file_lines doc -> valid (len doc) f -> lf_only_fix f ->
  apply_fix doc doc f = Ok doc1 -> file_lines doc1.
Proof.
  intros Hdoc Hv Hlf Hdoc1.
  destruct (apply_fix_valid doc f Hv)
    as (code & orig_line & Hc & Horig & _ & Hm). simpl in Hm.
  rewrite Hm in Hdoc1. injection Hdoc1 as <-.
  unfold lf_only_fix in Hlf. rewrite Hc in Hlf. simpl in Hlf.
  assert (file_lines (splitlines code)) as Hr0
    by (rewrite splitlines_lf_only by done; apply readlines_file_lines).
  destruct Hv as [_ [Hse He]]. unfold len in He.
  set (s := Z.to_nat (start_line f - 1)) in *.
  set (e := Z.to_nat (end_line f)) in *.
  assert (s < e <= length doc)%nat as Hrange by lia.
  replace (Z.to_nat (end_line f - 1)) with (pred e) in Horig by lia.
  set (r := if needs_newline (splitlines code) && endswith_nl orig_line
            then add_newline (splitlines code) else splitlines code).
  (* the lines before the range are full *)
  assert (Forall full_line (take s doc)) as Ha.
  { destruct Hdoc as [_ Hfull].
    assert (take s doc = take s (removelast doc)) as ->.
    { rewrite removelast_firstn_len.
      rewrite take_take. f_equal. lia. }
    by apply Forall_take. }
  destruct (decide (e = length doc)) as [Hlast|Hmore].
  - (* the range reaches the last line *)
    rewrite drop_ge, app_nil_r by lia.
    destruct (decide (r = [])) as [->|Hr].
    { rewrite app_nil_r. by apply full_lines_file_lines. }
    apply file_lines_app; [done|]. split; [done|].
    unfold r. destruct (needs_newline (splitlines code)) eqn:Hn; simpl;
      [|done].
    destruct (endswith_nl orig_line); [|done].
    by apply full_lines_file_lines, add_newline_full_lines.
  - (* lines follow the range: the original line at its end is full *)
    assert (full_line orig_line) as Ho.
    { destruct Hdoc as [_ Hfull]. rewrite Forall_forall in Hfull.
      apply Hfull, list_elem_of_lookup. exists (pred e).
      rewrite removelast_firstn_len, lookup_take_lt by lia. done. }
    assert (Forall full_line r) as Hr.
    { unfold r. rewrite (full_line_endswith_nl _ Ho), andb_true_r.
      destruct (needs_newline (splitlines code)) eqn:Hn.
      - by apply add_newline_full_lines.
      - by apply terminated_full_lines. }
    assert (drop e doc <> []) as Hc0.
    { intros E. apply (f_equal length) in E.
      rewrite length_drop in E. simpl in E. lia. }
    rewrite app_assoc. apply file_lines_app; [done|].
    split; [by apply Forall_app|].
    rewrite <- (take_drop e doc) in Hdoc.
    by apply file_lines_app in Hdoc as [_ ?].
Qed.

(** X6: when the replacement texts of valid, mutually non-overlapping
    edits have LF as their only line boundary, the patched lines of the
    lines of a text file are the lines of a text file again: each is a
    line as [readlines] cuts it, and [readlines] on their text gives
    exactly the patched lines. *)
Theorem patched_lines_are_file_lines (text : pystr) (fixes : list fix_t) :
  Forall (valid (len (readlines text))) fixes -> non_overlapping fixes ->
  Forall lf_only_fix fixes ->
  exists out,
    modified_code_lines (readlines text) fixes = Ok out /\
    file_lines out /\
    readlines (concat out) = out.
Proof.
  intros Hv Hno Hlf.
  destruct (valid_pass_ind
    (λ doc fixes out,
       file_lines doc -> Forall lf_only_fix fixes -> file_lines out))
    with (readlines text) fixes as (out & Hout & HP); try done.
  - clear. intros doc f fs doc1 out Hvf _ _ Hdoc1 HP Hdoc Hlf.
    apply Forall_cons in Hlf as [Hf Hfs]. apply HP.
    + by apply (apply_fix_file_lines doc doc1 f).
    + apply Forall_map. eapply Forall_impl; [exact Hfs|].
      intros g Hg. unfold lf_only_fix. by rewrite suggestedCode_recompute.
  - specialize (HP (readlines_file_lines text) Hlf).
    exists out. split; [done|]. split; [done|].
    by apply readlines_concat.
Qed.

Lemma patched_lines_are_file_lines_witness :
  let text := line "a" ++ line "b" ++ str "c" in
  let fixes := [edit 1 1 (str "X"); edit 3 3 (line "Y" ++ str "Z")] in
  exists out,
    modified_code_lines (readlines text) fixes = Ok out /\
    readlines (concat out) = out.
Proof.
  intros text fixes.
  destruct (patched_lines_are_file_lines text fixes)
    as (out & H1 & _ & H2).
  - repeat constructor; try (by eexists); vm_compute; discriminate.
  - repeat constructor; vm_compute; reflexivity.
  - repeat constructor; intros Hb; vm_compute in Hb; discriminate.
  - by exists out.
Defined.

(** * The response of the model *)

(** ** The string methods on small inputs *)

Example replace_from_the_left :
  replace (str "ab") (str "X") (str "cababa") = str "cXXa"
  /\ replace (str "aa") [] (str "aaa") = str "a".
Proof. split; reflexivity. Qed.

Example strip_both_ends :
  strip ([32; 9]%N ++ str "a b" ++ [10; 8232]%N) = str "a b".
Proof. reflexivity. Qed.

Example json_str_of_fenced_response :
  json_str (str "```json" ++ [NL] ++ str "[1, 2]" ++ [NL] ++ str "```")
  = str "[1, 2]".
Proof. reflexivity. Qed.

(** ** [replace], [strip] and [remove_controls] *)

Lemma replace_cons_match (old new : pystr) (c : N) (s : pystr) :
  startswith old (c :: s) = true ->
  replace old new (c :: s)
  = new ++ replace old new (drop (pred (length old)) s).
Proof. intros H. rewrite replace_equation_2, H. done. Qed.

Lemma replace_cons_skip (old new : pystr) (c : N) (s : pystr) :
  startswith old (c :: s) = false ->
  replace old new (c :: s) = c :: replace old new s.
Proof. intros H. rewrite replace_equation_2, H. done. Qed.

(** Before a text [t] that begins with the first character of [old], a
    text without that character is kept. *)
Lemma replace_skip_prefix (o : N) (old new s t : pystr) :
  o ∉ s -> replace (o :: old) new (s ++ t) = s ++ replace (o :: old) new t.
Proof.
  induction s as [|c s IH]; intros Hs; [done|].
  apply not_elem_of_cons in Hs as [Hc Hs]. simpl.
  rewrite replace_cons_skip, IH; [done..|].
  simpl. apply N.eqb_neq in Hc. by rewrite Hc.
Qed.

Lemma lstrip_spaces (ws s : pystr) :
  Forall (λ c, is_space c = true) ws -> lstrip (ws ++ s) = lstrip s.
Proof. induction 1 as [|c ws Hc _ IH]; simpl; [done|]. by rewrite Hc. Qed.

Lemma lstrip_kept (s t : pystr) :
  lstrip s = s -> s <> [] -> lstrip (s ++ t) = s ++ t.
Proof.
  destruct s as [|c s]; [done|]. simpl. intros H _.
  destruct (is_space c); [|done]. exfalso.
  assert (length (lstrip s) <= length s)%nat as Hlen.
  { clear. induction s as [|d s IH]; simpl; [lia|].
    destruct (is_space d); simpl; lia. }
  rewrite H in Hlen. simpl in Hlen. lia.
Qed.

(** White space around a stripped text is taken away. *)
Lemma strip_spaces (ws1 ws2 s : pystr) :
  Forall (λ c, is_space c = true) ws1 ->
  Forall (λ c, is_space c = true) ws2 ->
  stripped s -> strip (ws1 ++ s ++ ws2) = s.
Proof.
  intros H1 H2 [Hl Hr]. unfold strip. rewrite lstrip_spaces by done.
  destruct (decide (s = [])) as [->|Hne].
  - simpl. rewrite <- (app_nil_r ws2), lstrip_spaces by done. done.
  - rewrite lstrip_kept by done. rewrite reverse_app.
    rewrite lstrip_spaces by (by apply Forall_reverse).
    by rewrite Hr, reverse_involutive.
Qed.

Lemma remove_controls_none (s : pystr) :
  Forall (λ c, is_control c = false) s -> remove_controls s = s.
Proof.
  unfold remove_controls.
  induction 1 as [|c s Hc _ IH]; [done|].
  rewrite filter_cons_True by done. by rewrite IH.
Qed.

Lemma remove_controls_app (s t : pystr) :
  remove_controls (s ++ t) = remove_controls s ++ remove_controls t.
Proof. apply filter_app. Qed.

Lemma space_not_backtick (ws : pystr) :
  Forall (λ c, is_space c = true) ws -> backtick ∉ ws.
Proof.
  intros H Hin. rewrite Forall_forall in H. by specialize (H _ Hin).
Qed.

(** ** The text given to [json.loads] *)

(** A response without backtick keeps its text up to line 200. *)
Lemma replace_fences_none (s : pystr) :
  backtick ∉ s ->
  replace (str "```") [] (replace (str "```json") [] s) = s.
Proof.
  intros Hs.
  change (str "```json") with (backtick :: str "``json").
  change (str "```") with (backtick :: str "``").
  rewrite <- (app_nil_r s).
  rewrite !replace_skip_prefix by done. by simp replace.
Qed.

(** A response inside a [```json] fence loses the fence on line 200. *)
Lemma replace_fences_json (s : pystr) :
  backtick ∉ s ->
  replace (str "```") []
    (replace (str "```json") [] (str "```json" ++ s ++ str "```")) = s.
Proof.
  intros Hs.
  change (str "```json" ++ s ++ str "```")
    with (backtick :: (str "``json" ++ s ++ str "```")).
  rewrite replace_cons_match by reflexivity.
  change (drop (pred (length (str "```json")))
            (str "``json" ++ s ++ str "```")) with (s ++ str "```").
  simpl ([] ++ _).
  change (str "```json") with (backtick :: str "``json").
  change (str "```") with (backtick :: str "``").
  rewrite replace_skip_prefix by done.
  replace (replace (backtick :: str "``json") [] (backtick :: str "``"))
    with (backtick :: str "``") by (vm_compute; reflexivity).
  rewrite replace_skip_prefix by done.
  replace (replace (backtick :: str "``") [] (backtick :: str "``"))
    with (@nil N) by (vm_compute; reflexivity).
  apply app_nil_r.
Qed.

(** X8: a response that is a text without backtick and control character,
    possibly surrounded by white space and by a [```json] fence, reaches
    [json.loads] as that text alone. *)
Theorem fenced_response_is_unwrapped (payload ws1 ws2 : pystr) :
  backtick ∉ payload ->
  Forall (λ c, is_control c = false) payload ->
  stripped payload ->
  Forall (λ c, is_space c = true) ws1 ->
  Forall (λ c, is_space c = true) ws2 ->
  json_str (str "```json" ++ (ws1 ++ payload ++ ws2) ++ str "```") = payload
  /\ json_str (ws1 ++ payload ++ ws2) = payload.
Proof.
  intros Hb Hc Hs H1 H2.
  assert (backtick ∉ ws1 ++ payload ++ ws2) as Hu.
  { rewrite !elem_of_app.
    pose proof (space_not_backtick ws1 H1).
    pose proof (space_not_backtick ws2 H2). tauto. }
  unfold json_str.
  rewrite replace_fences_json, replace_fences_none by done.
  rewrite strip_spaces by done. split; by apply remove_controls_none.
Qed.

Lemma fenced_response_is_unwrapped_witness :
  json_str (str "```json" ++ ([NL] ++ str "[{}]" ++ [NL; 32%N]) ++ str "```")
  = str "[{}]".
Proof.
  destruct (fenced_response_is_unwrapped (str "[{}]") [NL] [NL; 32%N])
    as [H _]; [| |split; reflexivity | |  | exact H].
  - vm_compute. intros Hin.
    repeat (apply elem_of_cons in Hin as [Hin|Hin]; [discriminate Hin|]).
    by apply elem_of_nil in Hin.
  - repeat constructor.
  - repeat constructor.
  - repeat constructor.
Defined.

(** X9: a control character inside the response, such as a line break
    inside the text of a [suggestedCode], is deleted before decoding: what
    is before it and what is after it are joined. *)
Theorem control_characters_are_deleted (a b : pystr) (c : N) :
  backtick ∉ a -> backtick ∉ b ->
  Forall (λ c, is_control c = false) a ->
  Forall (λ c, is_control c = false) b ->
  is_control c = true ->
  a <> [] -> lstrip a = a ->
  b <> [] -> lstrip (reverse b) = reverse b ->
  json_str (a ++ [c] ++ b) = a ++ b.
Proof.
  intros Ha Hb Hca Hcb Hc Hane Hal Hbne Hbr.
  assert (backtick ∉ a ++ [c] ++ b) as Hu.
  { rewrite !elem_of_app, list_elem_of_singleton.
    intros [?|[E|?]]; [done| |done]. subst c. discriminate Hc. }
  unfold json_str. rewrite replace_fences_none by done.
  assert (strip (a ++ [c] ++ b) = a ++ [c] ++ b) as ->.
  { unfold strip. rewrite lstrip_kept by done.
    rewrite !reverse_app.
    rewrite <- app_assoc, lstrip_kept
      by (done || by intros ?%(f_equal reverse);
          rewrite reverse_involutive in *).
    by rewrite <- !reverse_app, reverse_involutive, <- app_assoc. }
  rewrite !remove_controls_app, !remove_controls_none by done.
  unfold remove_controls. rewrite filter_cons_False by congruence.
  simpl. f_equal. by apply remove_controls_none.
Qed.

Lemma control_characters_are_deleted_witness :
  json_str (str "[12," ++ [NL] ++ str "34]") = str "[12," ++ str "34]".
Proof.
  apply (control_characters_are_deleted (str "[12,") (str "34]") NL);
    try reflexivity; try discriminate; try (repeat constructor).
  - vm_compute. intros Hin.
    repeat (apply elem_of_cons in Hin as [Hin|Hin]; [discriminate Hin|]).
    by apply elem_of_nil in Hin.
  - vm_compute. intros Hin.
    repeat (apply elem_of_cons in Hin as [Hin|Hin]; [discriminate Hin|]).
    by apply elem_of_nil in Hin.
Defined.

(** * [review_command] *)

(** What a call of [apply_fixes] can leave on the disk. *)
Lemma apply_fixes_disk_cases (file_path : string) (fixes : list fix_t)
    (answer : reply) (fs : gmap string pystr) :
  let r := apply_fixes file_path fixes answer fs in
  disk r = fs
  \/ (answer = Yes /\ ended r = Applied /\ Confirm_ask Yes ∈ console r /\
      exists modified, disk r = <[file_path := writelines modified]> fs).
Proof.
  unfold apply_fixes. repeat case_match; simpl; try (by left).
  right. repeat split; [right; left | by eexists].
Qed.

Section ReviewFacts.
Variable generate_content : prompt -> ai_result.
Variable json_loads : pystr -> pystr + list fix_t.

(** The files that [review_command] leaves. *)
Lemma review_command_files (file_path : string)
    (fix_flag : bool) (answer : reply) (fs : gmap string pystr) :
  let r := review_command generate_content json_loads file_path fix_flag
             answer fs in
  (forall other, other <> file_path -> files r !! other = fs !! other)
  /\ (files r <> fs ->
      fix_flag = true /\ answer = Yes /\
      FromApplyFixes (Confirm_ask Yes) ∈ shown r).
Proof.
  unfold review_command.
  destruct (fs !! file_path) as [text|]; [|by split].
  destruct fix_flag; [|by split].
  destruct (get_ai_fixes generate_content (read text)) as [resp errors].
  destruct (_ || _); [by split|].
  destruct (json_loads (json_str resp)) as [err|fixes]; [by split|].
  simpl.
  destruct (apply_fixes_disk_cases file_path fixes answer fs)
    as [->|(-> & Hend & Hask & modified & ->)]; [by split|].
  split.
  - intros other Hne. by rewrite lookup_insert_ne.
  - intros _. repeat split.
    right. apply elem_of_app. right.
    apply list_elem_of_fmap. by eexists.
Qed.

(** X10: [review_command] never touches a file other than the one it is
    given, and it changes that file only in fix mode, after the user has
    been asked by [apply_fixes] and has accepted. *)
Theorem review_writes_only_the_confirmed_target (file_path : string)
    (fix_flag : bool) (answer : reply) (fs : gmap string pystr) :
  let r := review_command generate_content json_loads file_path fix_flag
             answer fs in
  (forall other, other <> file_path -> files r !! other = fs !! other)
  /\ (files r <> fs ->
      fix_flag = true /\ answer = Yes /\
      FromApplyFixes (Confirm_ask Yes) ∈ shown r).
Proof. apply review_command_files. Qed.

(** X11: in fix mode [apply_fixes] is not called, so that no change is
    proposed, the user is not asked and every file stays as it is, when
    the request to the model raises, when the response is empty or is
    ["[]"], the text the prompt asks for when there is no issue, and when
    the cleaned response does not decode. When the cleaned response
    decodes to the empty list, the files stay as they are as well and
    [apply_fixes] shows nothing but its message that there is no issue. *)
Theorem unusable_response_ends_review (file_path : string)
    (answer : reply) (fs : gmap string pystr) (text : pystr) :
  fs !! file_path = Some text ->
  let r := review_command generate_content json_loads file_path true
             answer fs in
  let response := generate_content (FixesPrompt (read text)) in
  ((exists message, response = AiException message)
   \/ response = Text [] \/ response = Text (str "[]")
   \/ (exists resp error,
         response = Text resp /\ json_loads (json_str resp) = inl error) ->
   files r = fs /\ forall e, FromApplyFixes e ∉ shown r)
  /\ ((exists resp,
         response = Text resp /\ json_loads (json_str resp) = inr []) ->
      files r = fs /\
      forall e, FromApplyFixes e ∈ shown r -> e = NoIssuesFound).
Proof.
  intros Hf r response. unfold r, response, review_command, get_ai_fixes.
  rewrite Hf. split.
  - intros [[message ->] | [-> | [-> | (resp & error & -> & Hj)]]]; simpl.
    + split; [done|]. intros e He. destruct (_ || _); no_such_event He.
    + split; [done|]. intros e He. no_such_event He.
    + split; [done|]. intros e He. no_such_event He.
    + destruct (_ || _); simpl; [|rewrite Hj; simpl];
        (split; [done|]; intros e He; no_such_event He).
  - intros (resp & -> & Hj). simpl.
    destruct (_ || _); simpl; [|rewrite Hj; simpl];
      (split; [done|]; intros e He).
    + no_such_event He.
    + apply elem_of_cons in He as [He|He]; [discriminate He|].
      apply elem_of_cons in He as [He|He]; [by injection He|].
      by apply elem_of_nil in He.
Qed.


End ReviewFacts.

Lemma unusable_response_ends_review_witness :
  let fs : gmap string pystr := {[ "c.ts"%string := line "a" ]} in
  let r := review_command (λ _, Text (str "[]"))
             (λ _, inr [edit 1 1 (line "b")]) "c.ts" true Yes fs in
  files r = fs /\ forall e, FromApplyFixes e ∉ shown r.
Proof.
  intros fs.
  destruct (unusable_response_ends_review (λ _, Text (str "[]"))
              (λ _, inr [edit 1 1 (line "b")]) "c.ts" Yes fs (line "a")
              eq_refl)
    as [H _].
  apply H. right. right. by left.
Defined.


(** ** An empty replacement text *)

(** X7: a fix with an empty [suggestedCode] never raises, whatever its
    line numbers: the patched document is the document without one block
    of consecutive lines, which for a range inside the document are the
    lines of the range. *)
Theorem empty_replacement_only_deletes (doc : list pystr) (fx : fix_t)
    (s : Z) :
  lineNumber fx = Some s -> suggestedCode fx = Some [] ->
  exists i j : nat,
    (i <= j <= length doc)%nat /\
    modified_code_lines doc [fx] = Ok (take i doc ++ drop j doc) /\
    (1 <= s <= end_line fx -> end_line fx <= len doc ->
     i = Z.to_nat (s - 1) /\ j = Z.to_nat (end_line fx)).
Proof.
  intros Hs Hc. rewrite modified_single.
  rewrite (apply_fix_unfold doc doc fx s [] Hs Hc).
  rewrite replacement_lines_terminated by done. simpl.
  unfold setslice. simpl.
  pose proof (len_nonneg doc) as Hl.
  pose proof (adjust_index_bounds (len doc) (s - 1) Hl) as Hlo.
  pose proof (adjust_index_bounds (len doc) (end_line fx) Hl) as Hhi.
  eexists _, _. split; [|split; [reflexivity|]].
  - unfold len in *. lia.
  - intros Hse He. unfold adjust_index.
    repeat case_match; lia.
Qed.

Lemma empty_replacement_only_deletes_witness :
  exists i j : nat,
    (i <= j <= 3)%nat /\
    modified_code_lines doc_abc [Fix (Some 7) (Some (-9)) (Some [])]
    = Ok (take i doc_abc ++ drop j doc_abc).
Proof.
  destruct (empty_replacement_only_deletes doc_abc
              (Fix (Some 7) (Some (-9)) (Some [])) 7 eq_refl eq_refl)
    as (i & j & Hij & Hm & _).
  by exists i, j.
Defined.

(** * [chat_command] and [main] *)

Section ChatFacts.
Variable send_message : list chat_message -> chat_message -> chat_result.
Variable exit_requested : string -> bool.
Variable file_request : string -> option string.

Lemma chat_loop_stops (fs : gmap string pystr) (pre post : list user_action)
    (stop : user_action) (history : list chat_message) :
  stops exit_requested stop ->
  chat_loop send_message exit_requested file_request fs
    (pre ++ stop :: post) history
  = chat_loop send_message exit_requested file_request fs
      (pre ++ [stop]) history.
Proof.
  intros Hstop. revert history.
  induction pre as [|a pre IH]; intros history; simpl.
  - destruct stop as [x|]; [|done]. simpl in Hstop. by rewrite Hstop.
  - destruct a as [x|]; [|done].
    destruct (exit_requested x); [done|].
    destruct (file_request x) as [path|].
    + destruct (fs !! path) as [text|]; by rewrite IH.
    + destruct (send_message history (UserMessage x)); by rewrite ?IH.
Qed.

(** X14: the chat ends at the first interrupt or exit line: what the user
    would type after it is never read, so that the messages sent and what
    is shown do not depend on it. *)
Theorem chat_ignores_input_after_stop (file_path : option string)
    (fs : gmap string pystr) (pre post : list user_action)
    (stop : user_action) :
  stops exit_requested stop ->
  chat_command send_message exit_requested file_request file_path
    (pre ++ stop :: post) fs
  = chat_command send_message exit_requested file_request file_path
      (pre ++ [stop]) fs.
Proof.
  intros Hstop. unfold chat_command.
  destruct (chat_context file_path fs) as [context events].
  destruct (send_message [] (InitialPrompt context)); try done;
    by rewrite chat_loop_stops.
Qed.

Lemma chat_loop_sent (file_path : option string)
    (all inputs : list user_action) (fs : gmap string pystr)
    (history : list chat_message) :
  (forall a, a ∈ inputs -> a ∈ all) ->
  Forall (given_by_user file_request file_path all fs) history ->
  Forall (given_by_user file_request file_path all fs)
    (chat_loop send_message exit_requested file_request fs inputs
       history).2.
Proof.
  revert history. induction inputs as [|a inputs IH];
    intros history Hsub Hh; simpl; [done|].
  assert (forall a', a' ∈ inputs -> a' ∈ all) as Hsub'
    by (intros a' Ha'; apply Hsub; by right).
  destruct a as [x|]; [|done].
  assert (Line x ∈ all) as Hx by (apply Hsub; left).
  destruct (exit_requested x); [done|].
  destruct (file_request x) as [path|] eqn:Hreq.
  - destruct (fs !! path) as [text|] eqn:Hfs.
    + specialize (IH (history ++ [FilePrompt path (read text)]) Hsub').
      destruct (chat_loop _ _ _ _ _ _) as [events sent]. simpl in *.
      apply IH. apply Forall_app. split; [done|].
      constructor; [|constructor]. simpl. by exists x, text.
    + specialize (IH history Hsub' Hh).
      by destruct (chat_loop _ _ _ _ _ _) as [events sent].
  - assert (Forall (given_by_user file_request file_path all fs)
              (history ++ [UserMessage x])) as Hh'.
    { apply Forall_app. split; [done|]. by constructor. }
    destruct (send_message history (UserMessage x)); simpl; try done.
    specialize (IH (history ++ [UserMessage x]) Hsub' Hh').
    by destruct (chat_loop _ _ _ _ _ _) as [events sent].
Qed.

(** X15: the chat sends to the model nothing but what the user has given:
    the fixed initial prompt, with the text of the file named on the
    command line when it exists, the lines typed by the user, and the text
    of the files named in load and read lines. *)
Theorem chat_sends_only_what_the_user_gives (file_path : option string)
    (inputs : list user_action) (fs : gmap string pystr) :
  Forall (given_by_user file_request file_path inputs fs)
    (chat_sent (chat_command send_message exit_requested file_request
                  file_path inputs fs)).
Proof.
  unfold chat_command.
  assert (given_by_user file_request file_path inputs fs
            (InitialPrompt (chat_context file_path fs).1)) as Hi.
  { unfold chat_context. destruct file_path as [path|]; [|done].
    case_bool_decide; [done|].
    destruct (fs !! path) as [text|] eqn:Hfs; [|done].
    simpl. split; [done|]. by exists text. }
  destruct (chat_context file_path fs) as [context events].
  change (given_by_user file_request file_path inputs fs
            (InitialPrompt context)) in Hi.
  assert (Forall (given_by_user file_request file_path inputs fs)
            [InitialPrompt context]) as Hh by (by constructor).
  pose proof (chat_loop_sent file_path inputs inputs fs
                [InitialPrompt context] (λ a H, H) Hh) as Hloop.
  destruct (send_message [] (InitialPrompt context));
    destruct (chat_loop _ _ _ _ _ _) as [shown sent]; simpl in *;
    try done; by constructor.
Qed.

End ChatFacts.

Section MainFacts.
Variable generate_content : prompt -> ai_result.
Variable json_loads : pystr -> pystr + list fix_t.
Variable send_message : list chat_message -> chat_message -> chat_result.
Variable exit_requested : string -> bool.
Variable file_request : string -> option string.

(** X16: whatever the arguments, the model and the user do, [main] leaves
    every file as it is, unless the command is [review] with a file name,
    [--fix] is among the arguments and the user accepts the changes; only
    the file named after [review] can then change. *)
Theorem main_writes_only_on_confirmed_fix (args : list string)
    (answer : reply) (inputs : list user_action)
    (fs : gmap string pystr) :
  let r := main generate_content json_loads send_message exit_requested
             file_request args answer inputs fs in
  main_files r <> fs ->
  exists file_path rest,
    args = "review"%string :: file_path :: rest /\
    "--fix"%string ∈ args /\ answer = Yes /\
    forall other, other <> file_path -> main_files r !! other = fs !! other.
Proof.
  unfold main. destruct args as [|command rest]; [done|].
  case_bool_decide as Hreview.
  - destruct rest as [|file_path rest]; [done|]. simpl.
    intros Hchanged.
    destruct (review_command_files generate_content json_loads file_path
                (bool_decide ("--fix"%string ∈ command :: file_path :: rest))
                answer fs) as [Hother Hfix].
    destruct (Hfix Hchanged) as (Hflag & Hans & _).
    exists file_path, rest. subst command. repeat split; try done.
    by apply bool_decide_eq_true in Hflag.
  - case_bool_decide; [|done]. by destruct rest as [|? [|? ?]].
Qed.

End MainFacts.

Lemma chat_ignores_input_after_stop_witness :
  let send := λ (_ : list chat_message) (_ : chat_message), Reply (str "ok") in
  let is_exit := String.eqb "exit" in
  chat_command send is_exit (λ _, None) None
    [Line "hi"; Line "exit"; Line "more"] ∅
  = chat_command send is_exit (λ _, None) None [Line "hi"; Line "exit"] ∅.
Proof.
  intros send is_exit.
  apply (chat_ignores_input_after_stop send is_exit (λ _, None) None ∅
           [Line "hi"] [Line "more"] (Line "exit")).
  reflexivity.
Defined.

Lemma main_writes_only_on_confirmed_fix_witness :
  let fs : gmap string pystr := {[ "c.ts"%string := line "a" ]} in
  let args := ["review"; "c.ts"; "--fix"]%string in
  let r := main (λ _, Text (str "[x]")) (λ _, inr [edit 1 1 (line "b")])
             (λ _ _, Reply []) (λ _, false) (λ _, None) args Yes [] fs in
  main_files r !! "c.ts"%string = Some (line "b")
  /\ exists file_path rest,
       args = "review"%string :: file_path :: rest /\
       "--fix"%string ∈ args.
Proof.
  intros fs args r. split; [reflexivity|].
  destruct (main_writes_only_on_confirmed_fix
              (λ _, Text (str "[x]")) (λ _, inr [edit 1 1 (line "b")])
              (λ _ _, Reply []) (λ _, false) (λ _, None) args Yes [] fs)
    as (file_path & rest & Hargs & Hfix & _).
  - intros Heq. apply (f_equal (λ m, m !! "c.ts"%string)) in Heq.
    vm_compute in Heq. discriminate Heq.
  - by exists file_path, rest.
Defined.
